(** * live_stream_downloader: the download manager, embedded and verified

    The development follows [internal/downloader] (the [Downloader] type and
    its goroutine [startDownload]), [internal/model] (the [Task] record) and
    the part of [internal/handler] that validates a creation request.

    - Go strings are [string]; [int64] counters are [Z] with the wrap-around
      of the machine addition written out ([wrap64]).
    - [*model.Task] is a pointer: tasks live in a heap (a list indexed by the
      pointer), and the two partitions of the registry map an id to a
      pointer, so that aliasing between the registry, the worker and the
      lists handed to callers is visible.
    - Every region that the source runs under [d.mu] is one atomic step; a
      worker goroutine is a small state machine whose program counter says
      which region comes next, and whose inputs are the results the
      environment hands it (clock readings, network and file results). *)

From Stdlib Require Import ZArith Ascii String Lia.
From stdpp Require Import base option list gmap strings pretty.

Local Open Scope Z_scope.

(** ** Paths: [filepath.Ext], [filepath.Clean], [filepath.Join]

    These are functions of Go's standard library [path/filepath], here in
    their Unix form (the separator is the slash, there is no volume name). *)

Module Filepath.

Definition Separator : ascii := "/"%char.
Definition dot : ascii := "."%char.

Definition IsPathSeparator (c : ascii) : bool := bool_decide (c = Separator).

Definition chars (s : string) : list ascii := String.list_ascii_of_string s.
Definition of_chars (l : list ascii) : string := String.string_of_list_ascii l.

(** [for i := len(path)-1; i >= 0 && !IsPathSeparator(path[i]); i--]:
    the scan walks the reversed path; [suffix] is [path[i+1:]]. *)
Fixpoint ext_scan (back : list ascii) (suffix : list ascii) : list ascii :=
  match back with
  | [] => []
  | c :: back' =>
      if IsPathSeparator c then []
      else if bool_decide (c = dot) then c :: suffix
      else ext_scan back' (c :: suffix)
  end.

Definition Ext (path : string) : string :=
  of_chars (ext_scan (rev (chars path)) []).

(** The elements of a path: the pieces between separators. *)
Fixpoint split_sep (cur : list ascii) (l : list ascii) : list (list ascii) :=
  match l with
  | [] => [rev cur]
  | c :: l' =>
      if IsPathSeparator c then rev cur :: split_sep [] l'
      else split_sep (c :: cur) l'
  end.

(** The output buffer of [Clean]: the bytes written so far and the index
    [dotdot] below which a [..] element must not backtrack. *)
Record lazybuf := { out : list ascii; dotdot : nat }.

(** [out.w--; for out.w > dotdot && !IsPathSeparator(out.index(out.w)) { out.w-- }] *)
Fixpoint backtrack_scan (n : nat) (buf : list ascii) (w dd : nat) : nat :=
  match n with
  | O => w
  | S n' =>
      if bool_decide (dd < w)%nat then
        match buf !! w with
        | Some c => if IsPathSeparator c then w else backtrack_scan n' buf (w - 1)%nat dd
        | None => w
        end
      else w
  end.

Definition backtrack (b : lazybuf) : lazybuf :=
  let w := (length (out b) - 1)%nat in
  let w' := backtrack_scan (length (out b)) (out b) w (dotdot b) in
  {| out := take w' (out b); dotdot := dotdot b |}.

(** One turn of the [switch] in [Clean], on a whole path element. *)
Definition clean_elem (rooted : bool) (b : lazybuf) (e : list ascii) : lazybuf :=
  match e with
  | [] => b
  | _ =>
    if bool_decide (e = [dot]) then b
    else if bool_decide (e = [dot; dot]) then
      if bool_decide (dotdot b < length (out b))%nat then backtrack b
      else if negb rooted then
        let o := if bool_decide (0 < length (out b))%nat
                 then out b ++ [Separator] else out b in
        let o' := o ++ [dot; dot] in
        {| out := o'; dotdot := length o' |}
      else b
    else
      let o := if (rooted && negb (bool_decide (length (out b) = 1%nat)))
                  || (negb rooted && negb (bool_decide (length (out b) = 0%nat)))
               then out b ++ [Separator] else out b in
      {| out := o ++ e; dotdot := dotdot b |}
  end.

Definition clean_chars (p : list ascii) : list ascii :=
  match p with
  | [] => [dot]
  | c :: _ =>
      let rooted := IsPathSeparator c in
      let b0 := if rooted then {| out := [Separator]; dotdot := 1 |}
                else {| out := []; dotdot := 0 |} in
      let b := foldl (clean_elem rooted) b0 (split_sep [] p) in
      match out b with
      | [] => [dot]
      | o => o
      end
  end.

Definition Clean (path : string) : string := of_chars (clean_chars (chars path)).

(** [strings.Join(elem, "/")] *)
Fixpoint join_sep (elem : list string) : string :=
  match elem with
  | [] => ""
  | [e] => e
  | e :: rest => e +:+ "/" +:+ join_sep rest
  end.

(** [Join]: the leading empty elements are dropped, the rest is joined
    with the separator and cleaned. *)
Fixpoint Join (elem : list string) : string :=
  match elem with
  | [] => ""
  | e :: rest =>
      if bool_decide (e = "") then Join rest
      else Clean (join_sep elem)
  end.

End Filepath.

(** ** [internal/model]: the task record *)

Inductive TaskStatus :=
  | TaskStatusDownloading
  | TaskStatusCompleted
  | TaskStatusError.

Global Instance TaskStatus_eq_dec : EqDecision TaskStatus.
Proof. solve_decision. Defined.

Record Task := mkTask {
  ID : string;
  URL : string;
  FileName : string;
  FilePath : string;
  Status : TaskStatus;
  FileSize : Z;
  StartTime : Z;
  EndTime : option Z;
  ErrorMessage : string
}.

Definition set_Status (v : TaskStatus) (t : Task) : Task :=
  mkTask (ID t) (URL t) (FileName t) (FilePath t) v (FileSize t)
         (StartTime t) (EndTime t) (ErrorMessage t).
Definition set_FileSize (v : Z) (t : Task) : Task :=
  mkTask (ID t) (URL t) (FileName t) (FilePath t) (Status t) v
         (StartTime t) (EndTime t) (ErrorMessage t).
Definition set_EndTime (v : option Z) (t : Task) : Task :=
  mkTask (ID t) (URL t) (FileName t) (FilePath t) (Status t) (FileSize t)
         (StartTime t) v (ErrorMessage t).
Definition set_ErrorMessage (v : string) (t : Task) : Task :=
  mkTask (ID t) (URL t) (FileName t) (FilePath t) (Status t) (FileSize t)
         (StartTime t) (EndTime t) v.

(** ** Machine integers *)

Definition wrap64 (z : Z) : Z := (z + 2 ^ 63) mod 2 ^ 64 - 2 ^ 63.

(** ** The worker goroutine [startDownload] *)

(** A [*model.Task]: an index into the heap of task records. The goroutine
    started for a task, the context it creates and its HTTP client are named
    by the same pointer. *)
Abbreviation ptr := nat.

(** Go's [error] values as far as the source tells them apart. *)
Inductive error :=
  | EOF
  | Err (msg : string).

Definition Error (e : error) : string :=
  match e with
  | EOF => "EOF"
  | Err msg => msg
  end.

(** The way a worker left its body, kept for the statements only. *)
Inductive exit_path :=
  | ExitRequest     (* http.NewRequestWithContext failed *)
  | ExitConnection  (* client.Do failed *)
  | ExitHTTPStatus  (* resp.StatusCode != 200 *)
  | ExitFileCreate  (* os.Create failed *)
  | ExitFileWrite   (* file.Write failed *)
  | ExitRead        (* resp.Body.Read failed, not io.EOF *)
  | ExitEndOfStream (* io.EOF *)
  | ExitCancelled.  (* <-ctx.Done() *)

(** Program counter of the goroutine: the region of [startDownload] that
    runs next. *)
Inductive pc :=
  | PcStart                        (* lines 81-104 *)
  | PcNewRequest                   (* line 115 *)
  | PcDo                           (* lines 122-133 *)
  | PcCreate                       (* lines 136-150 *)
  | PcSelect                       (* lines 154-160 *)
  | PcRead                         (* lines 163-181 *)
  | PcCheckErr (err : option error) (* lines 184-193 *)
  | PcDeferred (via : exit_path)   (* lines 107-112 *)
  | PcDone.

Record Worker := mkWorker {
  at_pc : pc;
  ctxDone : bool;       (* ctx.Done() is closed *)
  totalBytes : Z;
  lastUpdate : Z
}.

Definition set_pc (v : pc) (w : Worker) : Worker :=
  mkWorker v (ctxDone w) (totalBytes w) (lastUpdate w).
Definition cancel (w : Worker) : Worker :=
  mkWorker (at_pc w) true (totalBytes w) (lastUpdate w).

(** What the environment hands the goroutine in one region. *)
Inductive input :=
  | InStart
  | InNewRequest (err : option error) (now : Z)
  | InDo (err : option error) (StatusCode : Z) (now : Z)
  | InCreate (err : option error) (now : Z)
  | InSelect
  | InRead (n : Z) (err : option error) (writeErr : option error)
           (now_since now_last : Z) (now : Z)
  | InCheckErr (now : Z)
  | InDeferred.

(** ** The [Downloader] *)

Record Downloader := mkDownloader {
  activeTasks : gmap string ptr;
  completedTasks : gmap string ptr;
  dataDir : string;
  clients : gmap string ptr;
  cancelFuncs : gmap string ptr
}.

(** The downloader together with what its pointers point to. *)
Record World := mkWorld {
  d : Downloader;
  heap : list Task;
  workers : list Worker
}.

Definition New (dataDir : string) : World :=
  mkWorld (mkDownloader ∅ ∅ dataDir ∅ ∅) [] [].

Definition with_partitions (a c : gmap string ptr) (s : World) : World :=
  mkWorld (mkDownloader a c (dataDir (d s)) (clients (d s)) (cancelFuncs (d s)))
          (heap s) (workers s).
Definition with_handles (cl cf : gmap string ptr) (s : World) : World :=
  mkWorld (mkDownloader (activeTasks (d s)) (completedTasks (d s)) (dataDir (d s)) cl cf)
          (heap s) (workers s).
Definition with_heap (h : list Task) (s : World) : World :=
  mkWorld (d s) h (workers s).
Definition with_workers (ws : list Worker) (s : World) : World :=
  mkWorld (d s) (heap s) ws.

Definition StatusOK : Z := 200.
Definition updateInterval : Z := 1000000000.
Definition bufSize : Z := 32 * 1024.

(** File-name resolution of [CreateTask] (lines 52-56). *)
Definition resolveFileName (taskID fileName : string) : string :=
  if bool_decide (fileName = "") then "stream_" +:+ taskID +:+ ".flv"
  else if bool_decide (Filepath.Ext fileName = "") then fileName +:+ ".flv"
  else fileName.

(** [CreateTask]: [nowID] and [nowStart] are the two readings of the clock.
    The goroutine is only started: it has not run any region yet. *)
Definition CreateTask (s : World) (url fileName : string) (nowID nowStart : Z)
  : World * (ptr * option error) :=
  let taskID := pretty nowID in
  let fileName := resolveFileName taskID fileName in
  let task := {| ID := taskID; URL := url; FileName := fileName;
                 FilePath := Filepath.Join [dataDir (d s); fileName];
                 Status := TaskStatusDownloading; FileSize := 0;
                 StartTime := nowStart; EndTime := None; ErrorMessage := "" |} in
  let p := length (heap s) in
  let s1 := with_heap (heap s ++ [task]) s in
  let s2 := with_partitions (<[taskID := p]> (activeTasks (d s))) (completedTasks (d s)) s1 in
  let s3 := with_workers (workers s ++ [mkWorker PcStart false 0 0]) s2 in
  (s3, (p, None)).

(** [handleDownloadError] *)
Definition handleDownloadError (s : World) (p : ptr) (msg : string) (now : Z) : option World :=
  t ← heap s !! p;
  let t' := set_EndTime (Some now) (set_ErrorMessage msg (set_Status TaskStatusError t)) in
  Some (with_partitions (delete (ID t) (activeTasks (d s)))
                        (<[ID t := p]> (completedTasks (d s)))
                        (with_heap (<[p := t']> (heap s)) s)).

(** [completeTask] *)
Definition completeTask (s : World) (p : ptr) (total : Z) (now : Z) : option World :=
  t ← heap s !! p;
  let t' := set_EndTime (Some now) (set_FileSize total (set_Status TaskStatusCompleted t)) in
  Some (with_partitions (delete (ID t) (activeTasks (d s)))
                        (<[ID t := p]> (completedTasks (d s)))
                        (with_heap (<[p := t']> (heap s)) s)).

(** [cancel()] of the context that goroutine [c] created. *)
Definition cancel_ctx (c : ptr) (s : World) : World :=
  with_workers (alter cancel c (workers s)) s.

Definition cancel_if_registered (taskID : string) (s : World) : World :=
  match cancelFuncs (d s) !! taskID with
  | Some c => cancel_ctx c s
  | None => s
  end.

(** [StopTask] *)
Definition StopTask (s : World) (taskID : string) (now : Z) : World * option error :=
  match activeTasks (d s) !! taskID with
  | None => (s, Some (Err ("任务不存在: " +:+ taskID)))
  | Some p =>
      let s1 := cancel_if_registered taskID s in
      let h := alter (λ t, set_EndTime (Some now) (set_Status TaskStatusCompleted t)) p (heap s1) in
      (with_partitions (delete taskID (activeTasks (d s1)))
                       (<[taskID := p]> (completedTasks (d s1)))
                       (with_heap h s1), None)
  end.

(** [GetActiveTasks], [GetCompletedTasks]: a new slice holding the pointers
    of the partition (in the order the map iteration yields them). *)
Definition GetActiveTasks (s : World) : list ptr := (map_to_list (activeTasks (d s))).*2.
Definition GetCompletedTasks (s : World) : list ptr := (map_to_list (completedTasks (d s))).*2.

(** [GetTask] *)
Definition GetTask (s : World) (taskID : string) : option ptr :=
  match activeTasks (d s) !! taskID with
  | Some p => Some p
  | None => completedTasks (d s) !! taskID
  end.

(** Result of [os.Remove]. *)
Inductive remove_result :=
  | Removed
  | RemoveNotExist
  | RemoveFailed (msg : string).

(** [DeleteActiveTask] *)
Definition DeleteActiveTask (s : World) (taskID : string) (rm : remove_result)
  : World * option error :=
  match activeTasks (d s) !! taskID with
  | None => (s, Some (Err ("任务不存在: " +:+ taskID)))
  | Some p =>
      let s1 := cancel_if_registered taskID s in
      match rm with
      | RemoveFailed msg => (s1, Some (Err ("删除文件失败: " +:+ msg)))
      | _ => (with_partitions (delete taskID (activeTasks (d s1))) (completedTasks (d s1)) s1, None)
      end
  end.

(** [DeleteCompletedTask] *)
Definition DeleteCompletedTask (s : World) (taskID : string) (rm : remove_result)
  : World * option error :=
  match completedTasks (d s) !! taskID with
  | None => (s, Some (Err ("任务不存在: " +:+ taskID)))
  | Some p =>
      match rm with
      | RemoveFailed msg => (s, Some (Err ("删除文件失败: " +:+ msg)))
      | _ => (with_partitions (activeTasks (d s)) (delete taskID (completedTasks (d s))) s, None)
      end
  end.

(** ** One region of [startDownload] *)

Definition goto (p : ptr) (v : pc) (s : World) : World :=
  with_workers (alter (set_pc v) p (workers s)) s.

(** [d.handleDownloadError(task, fmt.Errorf(...)); return] *)
Definition fail (s : World) (p : ptr) (via : exit_path) (msg : string) (now : Z)
  : option World :=
  s' ← handleDownloadError s p msg now;
  Some (goto p (PcDeferred via) s').

Definition startDownload_step (s : World) (p : ptr) (inp : input) : option World :=
  w ← workers s !! p;
  t ← heap s !! p;
  match at_pc w, inp with
  | PcStart, InStart =>
      Some (goto p PcNewRequest
              (with_handles (<[ID t := p]> (clients (d s)))
                            (<[ID t := p]> (cancelFuncs (d s))) s))
  | PcNewRequest, InNewRequest err now =>
      match err with
      | Some e => fail s p ExitRequest ("创建请求失败: " +:+ Error e) now
      | None => Some (goto p PcDo s)
      end
  | PcDo, InDo err StatusCode now =>
      match err with
      | Some e => fail s p ExitConnection ("发送请求失败: " +:+ Error e) now
      | None =>
          if bool_decide (StatusCode ≠ StatusOK)
          then fail s p ExitHTTPStatus ("服务器返回错误状态码: " +:+ pretty StatusCode) now
          else Some (goto p PcCreate s)
      end
  | PcCreate, InCreate err now =>
      match err with
      | Some e => fail s p ExitFileCreate ("创建文件失败: " +:+ Error e) now
      | None =>
          Some (with_workers
                  (alter (λ w, mkWorker PcSelect (ctxDone w) 0 now) p (workers s)) s)
      end
  | PcSelect, InSelect =>
      if ctxDone w then Some (goto p (PcDeferred ExitCancelled) s)
      else Some (goto p PcRead s)
  | PcRead, InRead n err writeErr now_since now_last now =>
      if bool_decide (0 < n) then
        match writeErr with
        | Some e => fail s p ExitFileWrite ("写入文件失败: " +:+ Error e) now
        | None =>
            let total := wrap64 (totalBytes w + n) in
            if bool_decide (updateInterval <= now_since - lastUpdate w) then
              Some (with_workers
                      (alter (λ w, mkWorker (PcCheckErr err) (ctxDone w) total now_last)
                             p (workers s))
                      (with_heap (alter (set_FileSize total) p (heap s)) s))
            else
              Some (with_workers
                      (alter (λ w, mkWorker (PcCheckErr err) (ctxDone w) total (lastUpdate w))
                             p (workers s)) s)
        end
      else Some (goto p (PcCheckErr err) s)
  | PcCheckErr err, InCheckErr now =>
      match err with
      | None => Some (goto p PcSelect s)
      | Some EOF =>
          s' ← completeTask s p (totalBytes w) now;
          Some (goto p (PcDeferred ExitEndOfStream) s')
      | Some e => fail s p ExitRead ("读取数据失败: " +:+ Error e) now
      end
  | PcDeferred via, InDeferred =>
      Some (goto p PcDone
              (with_handles (delete (ID t) (clients (d s)))
                            (delete (ID t) (cancelFuncs (d s))) s))
  | _, _ => None
  end.

(** ** [internal/handler]: [handleCreateTask]

    [parsed] is the outcome of decoding the body: the [url] and [file_name]
    fields, or nothing when decoding failed. The response is the status code
    and, on success, the encoded task. *)
Definition StatusBadRequest : Z := 400.
Definition StatusMethodNotAllowed : Z := 405.
Definition StatusInternalServerError : Z := 500.

Definition handleCreateTask (s : World) (method : string)
    (parsed : option (string * string)) (nowID nowStart : Z)
  : World * (Z * option Task) :=
  if bool_decide (method ≠ "POST") then (s, (StatusMethodNotAllowed, None))
  else match parsed with
       | None => (s, (StatusBadRequest, None))
       | Some (url, fileName) =>
           if bool_decide (url = "") then (s, (StatusBadRequest, None))
           else
             let '(s', (p, err)) := CreateTask s url fileName nowID nowStart in
             match err with
             | Some _ => (s', (StatusInternalServerError, None))
             | None => (s', (StatusOK, heap s' !! p))
             end
       end.

(** ** The system: calls of the manager interleaved with worker regions *)

Inductive event :=
  | ECreateTask (url fileName : string) (nowID nowStart : Z)
  | EStopTask (taskID : string) (now : Z)
  | EDeleteActiveTask (taskID : string) (rm : remove_result)
  | EDeleteCompletedTask (taskID : string) (rm : remove_result)
  | EWorker (p : ptr) (inp : input).

Definition step (s : World) (ev : event) : option World :=
  match ev with
  | ECreateTask url fileName nowID nowStart =>
      Some (CreateTask s url fileName nowID nowStart).1
  | EStopTask taskID now => Some (StopTask s taskID now).1
  | EDeleteActiveTask taskID rm => Some (DeleteActiveTask s taskID rm).1
  | EDeleteCompletedTask taskID rm => Some (DeleteCompletedTask s taskID rm).1
  | EWorker p inp => startDownload_step s p inp
  end.

Fixpoint run (s : World) (evs : list event) : option World :=
  match evs with
  | [] => Some s
  | ev :: evs' => s' ← step s ev; run s' evs'
  end.

(** States the system can be in, when the environment respects [G]. *)
Inductive reach (G : World → event → Prop) : World → Prop :=
  | reach_New dataDir : reach G (New dataDir)
  | reach_step s ev s' :
      reach G s → G s ev → step s ev = Some s' → reach G s'.

Definition unconstrained : World → event → Prop := λ _ _, True.

(** The byte counter of a worker stays inside [int64]. *)
Definition counter_fits : World → event → Prop := λ s ev,
  match ev with
  | EWorker p (InRead n _ _ _ _ _) =>
      ∀ w, workers s !! p = Some w → 0 < n → totalBytes w + n < 2 ^ 63
  | _ => True
  end.

(** The clock gives every [CreateTask] an id no task has had. *)
Definition fresh_id : World → event → Prop := λ s ev,
  match ev with
  | ECreateTask _ _ nowID _ => ∀ t, t ∈ heap s → ID t ≠ pretty nowID
  | _ => True
  end.

(** What a caller sees through the pointers it was handed. *)
Definition view (s : World) (l : list ptr) : list (option Task) :=
  (λ p, heap s !! p) <$> l.

(** ** Notions the statements use *)

(** A name lacks an extension when its last path element holds no dot:
    every dot of the name is followed, somewhere, by a separator. *)
Definition lacks_extension (name : string) : Prop :=
  ∀ pre suf, Filepath.chars name = pre ++ Filepath.dot :: suf →
             Filepath.Separator ∈ suf.

(** [path] is below the directory [dir]. *)
Definition inside (dir path : string) : Prop :=
  ∃ rest, path = dir +:+ "/" +:+ rest.

(** The task [CreateTask] has just allocated. *)
Definition created (s : World) (url fileName : string) (nowID nowStart : Z)
  : option Task :=
  let r := CreateTask s url fileName nowID nowStart in heap r.1 !! r.2.1.

(** The effect one step can have on a task record. *)
Inductive task_step (t : Task) : Task → Prop :=
  | ts_same : task_step t t
  | ts_flush v : task_step t (set_FileSize v t)
  | ts_error msg now :
      task_step t (set_EndTime (Some now)
                     (set_ErrorMessage msg (set_Status TaskStatusError t)))
  | ts_complete v now :
      task_step t (set_EndTime (Some now)
                     (set_FileSize v (set_Status TaskStatusCompleted t)))
  | ts_stop now :
      task_step t (set_EndTime (Some now) (set_Status TaskStatusCompleted t)).

(** The status invariant of a task record. *)
Definition ended_iff_not_downloading (t : Task) : Prop :=
  is_Some (EndTime t) ↔ Status t ≠ TaskStatusDownloading.

(** The regions of [startDownload] before the read loop. *)
Definition before_loop (v : pc) : bool :=
  match v with
  | PcStart | PcNewRequest | PcDo | PcCreate => true
  | _ => false
  end.

(** The byte counters of a worker and of its task agree: the task never
    shows more than the worker has counted. *)
Definition counters_ok (s : World) : Prop :=
  length (workers s) = length (heap s)
  ∧ ∀ q w t, workers s !! q = Some w → heap s !! q = Some t →
      0 <= totalBytes w ∧ FileSize t <= totalBytes w
      ∧ (before_loop (at_pc w) = true → totalBytes w = 0).

(** The effect one step can have on the two counters of a task. *)
Inductive counter_change (ev : event) (q : ptr) (w : Worker) (t : Task)
    (w' : Worker) (t' : Task) : Prop :=
  | cc_quiet :
      FileSize t' = FileSize t → totalBytes w' = totalBytes w →
      (before_loop (at_pc w') = true → before_loop (at_pc w) = true) →
      counter_change ev q w t w' t'
  | cc_open :
      FileSize t' = FileSize t → totalBytes w' = 0 →
      before_loop (at_pc w) = true →
      counter_change ev q w t w' t'
  | cc_read n err now_since now_last now :
      ev = EWorker q (InRead n err None now_since now_last now) → 0 < n →
      totalBytes w' = wrap64 (totalBytes w + n) →
      FileSize t' = FileSize t ∨ FileSize t' = totalBytes w' →
      before_loop (at_pc w') = false →
      counter_change ev q w t w' t'
  | cc_complete :
      FileSize t' = totalBytes w → totalBytes w' = totalBytes w →
      before_loop (at_pc w') = false →
      counter_change ev q w t w' t'.

(** Several steps in a row, each within the guard [G]. *)
Inductive steps (G : World → event → Prop) : World → World → Prop :=
  | steps_refl s : steps G s s
  | steps_cons s ev s1 s' :
      G s ev → step s ev = Some s1 → steps G s1 s' → steps G s s'.

(** The guard [G] holds at every step of running [evs] from [s]. *)
Fixpoint guarded (G : World → event → Prop) (s : World) (evs : list event) : Prop :=
  match evs with
  | [] => True
  | ev :: evs' =>
      G s ev ∧ match step s ev with
               | Some s1 => guarded G s1 evs'
               | None => True
               end
  end.

(** The registry is consistent: an active entry points to a record with
    that id which is still downloading, a finished entry points to a record
    with that id, and no id is in both partitions. *)
Definition registry_ok_of (a c : gmap string nat) (h : list Task) : Prop :=
  (∀ taskID p, a !! taskID = Some p →
     ∃ t, h !! p = Some t ∧ ID t = taskID
          ∧ Status t = TaskStatusDownloading ∧ EndTime t = None)
  ∧ (∀ taskID p, c !! taskID = Some p → ∃ t, h !! p = Some t ∧ ID t = taskID)
  ∧ (∀ taskID, is_Some (a !! taskID) → c !! taskID = None).

Global Arguments registry_ok_of : simpl never.

Definition registry_ok (s : World) : Prop :=
  registry_ok_of (activeTasks (d s)) (completedTasks (d s)) (heap s).


(** One result of [resp.Body.Read]: the bytes read and the two readings of
    the clock that decide on the flush. *)
Record chunk := mkChunk { bytes : Z; now_since : Z; now_last : Z }.

(** One turn of the loop of [startDownload]. *)
Definition loop_turn (p : ptr) (c : chunk) (err : option error) (now : Z)
  : list event :=
  [EWorker p InSelect;
   EWorker p (InRead (bytes c) err None (now_since c) (now_last c) now);
   EWorker p (InCheckErr now)].

(** The worker opens the file, reads the chunks [cs] and then [final], which
    comes with [io.EOF]; no write fails. *)
Definition download (p : ptr) (now0 : Z) (cs : list chunk) (final : chunk)
    (now : Z) : list event :=
  EWorker p (InCreate None now0)
  :: (cs ≫= λ c, loop_turn p c None now) ++ loop_turn p final (Some EOF) now.

Definition total (cs : list chunk) : Z := foldr (λ c acc, bytes c + acc) 0 cs.

Definition chunk_ok (c : chunk) : Prop := 0 <= bytes c <= bufSize.

(** Worker [p] is at [v], with context state [ctx] and [T] bytes counted,
    and its task has id [taskID]. *)
Definition worker_at (s : World) (p : ptr) (v : pc) (ctx : bool) (T : Z)
    (taskID : string) : Prop :=
  ∃ w t, workers s !! p = Some w ∧ heap s !! p = Some t
       ∧ at_pc w = v ∧ ctxDone w = ctx ∧ totalBytes w = T ∧ ID t = taskID.

(** ** [internal/handler]: the other API handlers *)

(** What a handler writes after the status line. *)
Inductive body :=
  | BodyError (msg : string)              (* http.Error(w, msg, code) *)
  | BodySuccess                           (* {"status": "success"} *)
  | BodyTasks (ts : list (option Task)).  (* the tasks, encoded *)

Fixpoint string_drop (n : nat) (s : string) : string :=
  match n, s with
  | O, _ => s
  | S n', String _ s' => string_drop n' s'
  | S _, EmptyString => EmptyString
  end.

(** [path[n:]]; out of range the slice expression panics. *)
Definition slice_from (path : string) (n : nat) : option string :=
  if bool_decide (n ≤ String.length path)%nat then Some (string_drop n path)
  else None.

Definition stop_prefix : string := "/api/tasks/stop/".
Definition delete_active_prefix : string := "/api/tasks/delete/active/".
Definition delete_completed_prefix : string := "/api/tasks/delete/completed/".

(** [handleStopTask]; [None] is the panic of the slice expression. *)
Definition handleStopTask (s : World) (method path : string) (now : Z)
  : option (World * (Z * body)) :=
  if bool_decide (method ≠ "POST")
  then Some (s, (StatusMethodNotAllowed, BodyError "Method not allowed"))
  else
    taskID ← slice_from path (String.length stop_prefix);
    if bool_decide (taskID = "")
    then Some (s, (StatusBadRequest, BodyError "任务ID不能为空"))
    else
      let '(s', err) := StopTask s taskID now in
      match err with
      | Some e => Some (s', (StatusInternalServerError,
                             BodyError ("停止任务失败: " +:+ Error e)))
      | None => Some (s', (StatusOK, BodySuccess))
      end.

(** [handleDeleteActiveTask] *)
Definition handleDeleteActiveTask (s : World) (method path : string)
    (rm : remove_result) : option (World * (Z * body)) :=
  if bool_decide (method ≠ "DELETE")
  then Some (s, (StatusMethodNotAllowed, BodyError "Method not allowed"))
  else
    taskID ← slice_from path (String.length delete_active_prefix);
    if bool_decide (taskID = "")
    then Some (s, (StatusBadRequest, BodyError "任务ID不能为空"))
    else
      let '(s', err) := DeleteActiveTask s taskID rm in
      match err with
      | Some e => Some (s', (StatusInternalServerError,
                             BodyError ("删除任务失败: " +:+ Error e)))
      | None => Some (s', (StatusOK, BodySuccess))
      end.

(** [handleDeleteCompletedTask] *)
Definition handleDeleteCompletedTask (s : World) (method path : string)
    (rm : remove_result) : option (World * (Z * body)) :=
  if bool_decide (method ≠ "DELETE")
  then Some (s, (StatusMethodNotAllowed, BodyError "Method not allowed"))
  else
    taskID ← slice_from path (String.length delete_completed_prefix);
    if bool_decide (taskID = "")
    then Some (s, (StatusBadRequest, BodyError "任务ID不能为空"))
    else
      let '(s', err) := DeleteCompletedTask s taskID rm in
      match err with
      | Some e => Some (s', (StatusInternalServerError,
                             BodyError ("删除任务失败: " +:+ Error e)))
      | None => Some (s', (StatusOK, BodySuccess))
      end.



(** ** Further invariants *)

(** Every active entry points to a record with that id which is still
    downloading; every finished entry points to a record with that id which
    has a terminal status and an end time. *)
Definition partitions_ok_of (a c : gmap string nat) (h : list Task) : Prop :=
  (∀ taskID p, a !! taskID = Some p →
     ∃ t, h !! p = Some t ∧ ID t = taskID
          ∧ Status t = TaskStatusDownloading ∧ EndTime t = None)
  ∧ (∀ taskID p, c !! taskID = Some p →
     ∃ t, h !! p = Some t ∧ ID t = taskID
          ∧ Status t ≠ TaskStatusDownloading ∧ is_Some (EndTime t)).

Global Arguments partitions_ok_of : simpl never.

Definition partitions_ok (s : World) : Prop :=
  partitions_ok_of (activeTasks (d s)) (completedTasks (d s)) (heap s).

(** The goroutine has registered its handles and has not yet run its
    deferred function. *)
Definition registered_pc (v : pc) : bool :=
  match v with
  | PcStart | PcDone => false
  | _ => true
  end.

(** A registered cancel function belongs to a goroutine that is running and
    whose task has the id it is registered under. *)
Definition handles_ok_of (cf : gmap string nat) (ws : list Worker) (h : list Task)
  : Prop :=
  ∀ taskID c, cf !! taskID = Some c →
    ∃ w t, ws !! c = Some w ∧ h !! c = Some t ∧ ID t = taskID
           ∧ registered_pc (at_pc w) = true.

Global Arguments handles_ok_of : simpl never.

Definition handles_ok (s : World) : Prop :=
  handles_ok_of (cancelFuncs (d s)) (workers s) (heap s).

(** No two task records share an id. *)
Definition ids_unique (h : list Task) : Prop :=
  ∀ p q t t', h !! p = Some t → h !! q = Some t' → ID t = ID t' → p = q.

(** The goroutine has left the body of [startDownload]. *)
Definition exited_pc (v : pc) : bool :=
  match v with
  | PcDeferred _ | PcDone => true
  | _ => false
  end.

(** The error message is set exactly on the records in state error, and a
    record in state error belongs to a goroutine that has left its body. *)
Definition error_detail_ok (s : World) : Prop :=
  length (workers s) = length (heap s)
  ∧ ∀ p w t, workers s !! p = Some w → heap s !! p = Some t →
      (Status t = TaskStatusError ↔ ErrorMessage t ≠ "")
      ∧ (Status t = TaskStatusError → exited_pc (at_pc w) = true).

(** The effect one step can have on the status and the error message of a
    task, together with the place of its goroutine. *)
Inductive status_change (s : World) (ev : event) (q : ptr) (w : Worker) (t : Task)
    (w' : Worker) (t' : Task) : Prop :=
  | sc_quiet :
      Status t' = Status t → ErrorMessage t' = ErrorMessage t →
      (exited_pc (at_pc w) = true → exited_pc (at_pc w') = true) →
      status_change s ev q w t w' t'
  | sc_error :
      Status t' = TaskStatusError → ErrorMessage t' ≠ "" →
      exited_pc (at_pc w') = true →
      status_change s ev q w t w' t'
  | sc_complete :
      Status t' = TaskStatusCompleted → ErrorMessage t' = ErrorMessage t →
      exited_pc (at_pc w) = false →
      status_change s ev q w t w' t'
  | sc_stop taskID now :
      ev = EStopTask taskID now → activeTasks (d s) !! taskID = Some q →
      Status t' = TaskStatusCompleted → ErrorMessage t' = ErrorMessage t →
      at_pc w' = at_pc w →
      status_change s ev q w t w' t'.

(** A goroutine that has registered and not yet run its deferred function
    is found under the id of its task. *)
Definition handles_complete_of (cf : gmap string nat) (ws : list Worker)
    (h : list Task) : Prop :=
  ∀ p w t, ws !! p = Some w → h !! p = Some t →
    registered_pc (at_pc w) = true → cf !! ID t = Some p.

Global Arguments handles_complete_of : simpl never.

(** A file name that is a single path element other than [.] and [..]. *)
Definition plain_name (name : string) : Prop :=
  name ≠ "" ∧ name ≠ "." ∧ name ≠ ".."
  ∧ Filepath.Separator ∉ Filepath.chars name.

(** ** Scenarios used as examples *)

(** A task is created and its worker gets as far as opening the file. *)
Definition to_file_open : list event :=
  [ECreateTask "http://x/live.flv" "show" 1700 1701;
   EWorker 0%nat InStart; EWorker 0%nat (InNewRequest None 1);
   EWorker 0%nat (InDo None 200 2); EWorker 0%nat (InCreate None 3)].

(** ... and then enters the read loop. *)
Definition to_read_loop : list event := to_file_open ++ [EWorker 0%nat InSelect].


(** The task is stopped while its worker is blocked in [Read], which then
    fails. *)
Definition stopped_then_read_error : list event :=
  to_read_loop ++ [EStopTask "1700" 50;
                   EWorker 0%nat (InRead 0 (Some (Err "context canceled")) None 4 5 6);
                   EWorker 0%nat (InCheckErr 60)].

Definition after (evs : list event) : World :=
  default (New "") (run (New "/app/data") evs).

Definition reading : World := Eval vm_compute in after to_read_loop.


(** The worker has its response, with status 200, and is about to create
    the file. *)
Definition connected : World :=
  Eval vm_compute in
    after [ECreateTask "http://x/live.flv" "show" 1700 1701; EWorker 0%nat InStart;
           EWorker 0%nat (InNewRequest None 1); EWorker 0%nat (InDo None 200 2)].

(** Two reads, the first of which is flushed, and the read that ends the
    stream. *)
Definition first_chunks : list chunk :=
  [mkChunk 100 2000000000 2000000001; mkChunk 50 2000000002 2000000003].
Definition last_chunk : chunk := mkChunk 7 2000000004 2000000005.

(** The first chunk arrives, a second after the file was opened. *)
Definition first_chunk : event :=
  EWorker 0%nat (InRead 100 None None 2000000000 2000000001 4).

(** * Verification *)

(** ** File names and paths *)

Example Ext_show_flv : Filepath.Ext "show.flv" = ".flv".
Proof. reflexivity. Qed.
Example Ext_dir_dot : Filepath.Ext "a.b/show" = "".
Proof. reflexivity. Qed.
Example Ext_trailing_dot : Filepath.Ext "show." = ".".
Proof. reflexivity. Qed.
Example Clean_1 : Filepath.Clean "/app/data/../../etc//x/./y.flv" = "/etc/x/y.flv".
Proof. reflexivity. Qed.
Example Clean_2 : Filepath.Clean "a/../../b/.." = "..".
Proof. reflexivity. Qed.
Example Clean_3 : Filepath.Clean "/../a/b/../.." = "/".
Proof. reflexivity. Qed.
Example Join_1 : Filepath.Join ["/app/data"; "show.flv"] = "/app/data/show.flv".
Proof. reflexivity. Qed.

Lemma wrap64_small z : - 2 ^ 63 <= z < 2 ^ 63 → wrap64 z = z.
Proof. intros H. unfold wrap64. rewrite Z.mod_small; lia. Qed.

Lemma sep_not_dot : Filepath.Separator ≠ Filepath.dot.
Proof. discriminate. Qed.

(** The scan finds nothing exactly when every dot it could meet lies behind
    a separator (in scan order). *)
Lemma ext_scan_nil back suffix :
  Filepath.ext_scan back suffix = [] ↔
  ∀ b1 b2, back = b1 ++ Filepath.dot :: b2 → Filepath.Separator ∈ b1.
Proof.
  revert suffix. induction back as [|c back IH]; intros suffix; simpl.
  - split; [|done]. intros _ [|??] ? ?; discriminate.
  - unfold Filepath.IsPathSeparator. case_bool_decide as Hsep.
    + split; [|done]. intros _ [|x b1] b2 Heq; simpl in Heq.
      * injection Heq as -> _. by destruct sep_not_dot.
      * injection Heq as -> _. rewrite Hsep. apply list_elem_of_here.
    + case_bool_decide as Hdot.
      * split; [done|]. intros H. specialize (H [] back).
        simpl in H. rewrite Hdot in H. specialize (H eq_refl).
        by apply not_elem_of_nil in H.
      * rewrite IH. split.
        -- intros H [|x b1] b2 Heq; simpl in Heq.
           ++ injection Heq as -> _. done.
           ++ injection Heq as -> ->. apply list_elem_of_further. by eapply H.
        -- intros H b1 b2 ->. specialize (H (c :: b1) b2 eq_refl).
           apply elem_of_cons in H as [?|?]; [congruence|done].
Qed.

Lemma elem_of_rev {A} (x : A) l : x ∈ rev l ↔ x ∈ l.
Proof. rewrite !list_elem_of_In. symmetry. apply in_rev. Qed.

Lemma of_chars_nil l : Filepath.of_chars l = "" ↔ l = [].
Proof. destruct l; simpl; split; congruence. Qed.

(** [filepath.Ext] returns the empty string exactly for the names that lack
    an extension. *)
Lemma Ext_empty_iff name : Filepath.Ext name = "" ↔ lacks_extension name.
Proof.
  unfold Filepath.Ext, lacks_extension. rewrite of_chars_nil, ext_scan_nil.
  split.
  - intros H pre suf Heq. specialize (H (rev suf) (rev pre)).
    rewrite <- elem_of_rev. apply H.
    rewrite Heq, rev_app_distr. simpl. by rewrite <- app_assoc.
  - intros H b1 b2 Heq. specialize (H (rev b2) (rev b1)).
    rewrite elem_of_rev in H. apply H.
    rewrite <- (rev_involutive (Filepath.chars name)), Heq, rev_app_distr.
    simpl. by rewrite <- app_assoc.
Qed.

(** C7. [CreateTask] resolves the file name in one of three ways: an empty
    name becomes [stream_<id>.flv], built from the id of the task; a name
    without extension gets [.flv] appended; any other name is kept as it was
    given. The id is the decimal rendering of the clock reading. *)
Theorem C7_file_name_resolution s url fileName nowID nowStart :
  ∃ t, created s url fileName nowID nowStart = Some t
     ∧ ID t = pretty nowID
     ∧ ( (fileName = "" ∧ FileName t = "stream_" +:+ ID t +:+ ".flv")
       ∨ (fileName ≠ "" ∧ lacks_extension fileName
                        ∧ FileName t = fileName +:+ ".flv")
       ∨ (fileName ≠ "" ∧ ¬ lacks_extension fileName
                        ∧ FileName t = fileName) ).
Proof.
  unfold created, CreateTask. simpl.
  rewrite lookup_app_r by lia. rewrite Nat.sub_diag. simpl.
  eexists. split; [reflexivity|]. simpl. split; [reflexivity|].
  unfold resolveFileName. case_bool_decide as Hempty.
  - left. done.
  - case_bool_decide as Hext.
    + right; left. by rewrite <- Ext_empty_iff.
    + right; right. by rewrite <- Ext_empty_iff.
Qed.

Example file_name_show :
  FileName <$> created (New "/app/data") "http://x/live.flv" "show" 1700 1701
  = Some "show.flv".
Proof. reflexivity. Qed.

Example file_name_empty :
  FileName <$> created (New "/app/data") "http://x/live.flv" "" 1700 1701
  = Some "stream_1700.flv".
Proof. reflexivity. Qed.

Lemma inside_prefix dir path :
  inside dir path → String.prefix (dir +:+ "/") path = true.
Proof.
  intros [rest ->]. induction dir as [|c dir IH]; simpl.
  - by destruct rest.
  - destruct (ascii_dec c c); [done|congruence].
Qed.

(** C10. The target path of a new task is the join of the data directory
    with the resolved file name, and [CreateTask] reports no error whatever
    the name is; a name with [..] segments gives a path outside the data
    directory. *)
Theorem C10_target_path_unchecked :
  (∀ s url fileName nowID nowStart,
     (CreateTask s url fileName nowID nowStart).2.2 = None
     ∧ ∃ t, created s url fileName nowID nowStart = Some t
          ∧ FilePath t = Filepath.Join [dataDir (d s); FileName t]
          ∧ FileName t = resolveFileName (pretty nowID) fileName)
  ∧ (∃ t, created (New "/app/data") "http://x/live.flv" "../../etc/passwd" 1700 1701
          = Some t
        ∧ FilePath t = "/etc/passwd.flv"
        ∧ ¬ inside "/app/data" (FilePath t)).
Proof.
  split.
  - intros. split; [done|]. unfold created, CreateTask. simpl.
    rewrite lookup_app_r by lia. rewrite Nat.sub_diag. simpl. eauto.
  - eexists. split; [reflexivity|]. split; [reflexivity|].
    intros H%inside_prefix. discriminate.
Qed.

(** ** Task creation *)

Lemma CreateTask_heap s url fileName nowID nowStart :
  ∃ t, heap (CreateTask s url fileName nowID nowStart).1 = heap s ++ [t]
     ∧ (CreateTask s url fileName nowID nowStart).2.1 = length (heap s)
     ∧ ID t = pretty nowID ∧ URL t = url
     ∧ Status t = TaskStatusDownloading ∧ FileSize t = 0 ∧ EndTime t = None.
Proof. unfold CreateTask. simpl. eexists. split; [reflexivity|]. done. Qed.

(** C2, as the claim states it, fails: with an empty URL [CreateTask] reports
    no error and the task is created and active. *)
Lemma C2_counterexample :
  let r := CreateTask (New "/app/data") "" "" 1700 1701 in
  r.2.2 = None
  ∧ activeTasks (d r.1) !! "1700" = Some r.2.1
  ∧ URL <$> heap r.1 !! r.2.1 = Some "".
Proof. vm_compute. done. Qed.

(** C2, amended. [CreateTask] makes no check of the URL and never fails: for
    every URL, empty or not, it allocates the task in state downloading,
    enters it in the active partition under its id, starts the goroutine
    (which has run nothing yet, so no network activity precedes the return)
    and returns the task. The empty URL is refused one layer up: the handler
    answers 400 without calling [CreateTask], so that no task is created. *)
Theorem C2_create_never_fails s url fileName nowID nowStart :
  let r := CreateTask s url fileName nowID nowStart in
  r.2.2 = None
  ∧ (∃ t, heap r.1 = heap s ++ [t]
        ∧ heap r.1 !! r.2.1 = Some t
        ∧ URL t = url ∧ ID t = pretty nowID
        ∧ Status t = TaskStatusDownloading ∧ FileSize t = 0 ∧ EndTime t = None
        ∧ activeTasks (d r.1) = <[ID t := r.2.1]> (activeTasks (d s)))
  ∧ completedTasks (d r.1) = completedTasks (d s)
  ∧ workers r.1 = workers s ++ [mkWorker PcStart false 0 0]
  ∧ handleCreateTask s "POST" (Some ("", fileName)) nowID nowStart
    = (s, (StatusBadRequest, None)).
Proof.
  unfold CreateTask. simpl. split; [done|]. split; [|done].
  eexists. split; [reflexivity|].
  rewrite lookup_app_r by lia. rewrite Nat.sub_diag. done.
Qed.

(** ** Stopping *)

Lemma cancel_if_registered_d taskID s : d (cancel_if_registered taskID s) = d s.
Proof. unfold cancel_if_registered. by destruct (cancelFuncs (d s) !! taskID). Qed.

Lemma cancel_if_registered_heap taskID s :
  heap (cancel_if_registered taskID s) = heap s.
Proof. unfold cancel_if_registered. by destruct (cancelFuncs (d s) !! taskID). Qed.

Lemma StopTask_absent s taskID now :
  activeTasks (d s) !! taskID = None →
  StopTask s taskID now = (s, Some (Err ("任务不存在: " +:+ taskID))).
Proof. intros H. unfold StopTask. by rewrite H. Qed.

Lemma StopTask_not_active_after s taskID now :
  activeTasks (d (StopTask s taskID now).1) !! taskID = None.
Proof.
  unfold StopTask. destruct (activeTasks (d s) !! taskID) eqn:H; simpl; [|done].
  rewrite cancel_if_registered_d. apply lookup_delete_eq.
Qed.

(** C3, as the claim states it, fails: the second of two calls in a row is
    refused with the not-found error. *)
Lemma C3_counterexample :
  let s1 := (CreateTask (New "/app/data") "http://x/live.flv" "show" 1700 1701).1 in
  let s2 := (StopTask s1 "1700" 1800).1 in
  (StopTask s1 "1700" 1800).2 = None
  ∧ (StopTask s2 "1700" 1900).2 = Some (Err "任务不存在: 1700").
Proof. vm_compute. done. Qed.

(** C3, amended. [StopTask] on an id that is not in the active partition
    fails with the not-found error and changes nothing; a second call that
    follows a first one on the same id is such a call: it fails with the
    not-found error and leaves the world, hence the status the first call
    gave the task, as it is. *)
Theorem C3_stop_not_found s taskID now now' :
  (activeTasks (d s) !! taskID = None →
   StopTask s taskID now = (s, Some (Err ("任务不存在: " +:+ taskID))))
  ∧ (let s1 := (StopTask s taskID now).1 in
     StopTask s1 taskID now' = (s1, Some (Err ("任务不存在: " +:+ taskID)))).
Proof.
  split; [apply StopTask_absent|].
  simpl. apply StopTask_absent, StopTask_not_active_after.
Qed.

Lemma C3_stop_not_found_witness :
  activeTasks (d (New "/app/data")) !! "1700" = None
  ∧ StopTask (New "/app/data") "1700" 5
    = (New "/app/data", Some (Err ("任务不存在: " +:+ "1700"))).
Proof.
  split; [reflexivity|].
  apply (proj1 (C3_stop_not_found (New "/app/data") "1700" 5 6)). reflexivity.
Defined.

(** ** Listing *)

Lemma elem_of_values (m : gmap string ptr) p :
  p ∈ (map_to_list m).*2 ↔ ∃ k, m !! k = Some p.
Proof.
  rewrite list_elem_of_fmap. split.
  - intros [[k q] [-> H]]. exists k. by apply elem_of_map_to_list.
  - intros [k H]. exists (k, p). split; [done|]. by apply elem_of_map_to_list.
Qed.

Lemma view_lookup s (l : list ptr) i p :
  l !! i = Some p → view s l !! i = Some (heap s !! p).
Proof. intros H. unfold view. by rewrite list_lookup_fmap, H. Qed.

(** C4, as the claim states it, fails: a list obtained before a progress
    flush shows, after the flush, the new byte count. *)
Lemma C4_counterexample :
  ∃ s1 s2,
    run (New "/app/data")
        [ECreateTask "http://x/live.flv" "show" 1700 1701;
         EWorker 0%nat InStart; EWorker 0%nat (InNewRequest None 1);
         EWorker 0%nat (InDo None 200 2); EWorker 0%nat (InCreate None 3);
         EWorker 0%nat InSelect] = Some s1
    ∧ step s1 (EWorker 0%nat (InRead 100 None None 2000000000 2000000001 4)) = Some s2
    ∧ GetActiveTasks s1 = [0%nat]
    ∧ FileSize <$> default None (view s1 (GetActiveTasks s1) !! 0%nat) = Some 0
    ∧ FileSize <$> default None (view s2 (GetActiveTasks s1) !! 0%nat) = Some 100
    ∧ view s2 (GetActiveTasks s1) ≠ view s1 (GetActiveTasks s1).
Proof.
  eexists _, _. split; [vm_compute; reflexivity|].
  split; [vm_compute; reflexivity|].
  split; [vm_compute; reflexivity|].
  split; [vm_compute; reflexivity|].
  split; [vm_compute; reflexivity|].
  vm_compute. discriminate.
Qed.

(** C4, amended. [GetActiveTasks] and [GetCompletedTasks] build a new list
    that holds exactly the pointers stored in the partition: the list is the
    caller's, its elements are the registry's own task records. Reading
    through the list gives the current record, so a flush by the worker is
    seen through a list handed out earlier. *)
Theorem C4_lists_alias_live_records :
  (∀ s p, p ∈ GetActiveTasks s ↔ ∃ taskID, activeTasks (d s) !! taskID = Some p)
  ∧ (∀ s p, p ∈ GetCompletedTasks s ↔ ∃ taskID, completedTasks (d s) !! taskID = Some p)
  ∧ (∀ s, length (GetActiveTasks s) = size (activeTasks (d s))
          ∧ length (GetCompletedTasks s) = size (completedTasks (d s)))
  ∧ (∀ s p w t n err now_since now_last now (l : list ptr) i,
       workers s !! p = Some w → heap s !! p = Some t →
       at_pc w = PcRead → 0 < n →
       updateInterval <= now_since - lastUpdate w →
       l !! i = Some p →
       ∃ s', startDownload_step s p (InRead n err None now_since now_last now) = Some s'
           ∧ view s l !! i = Some (Some t)
           ∧ view s' l !! i = Some (Some (set_FileSize (wrap64 (totalBytes w + n)) t))).
Proof.
  split; [intros; apply elem_of_values|].
  split; [intros; apply elem_of_values|].
  split.
  { intros s. unfold GetActiveTasks, GetCompletedTasks.
    by rewrite !length_fmap, !length_map_to_list. }
  intros s p w t n err ns nl now l i Hw Ht Hpc Hn Hflush Hl.
  unfold startDownload_step. rewrite Hw, Ht. simpl. rewrite Hpc.
  rewrite bool_decide_true by done. rewrite bool_decide_true by done.
  eexists. split; [reflexivity|].
  rewrite !(view_lookup _ _ _ _ Hl). cbn [heap with_workers with_heap].
  by rewrite list_lookup_alter_eq, Ht.
Qed.

Lemma C4_lists_alias_live_records_witness :
  ∃ s', startDownload_step reading 0%nat
          (InRead 100 None None 2000000000 2000000001 4) = Some s'
      ∧ FileSize <$> default None (view s' (GetActiveTasks reading) !! 0%nat) = Some 100.
Proof.
  destruct (proj2 (proj2 (proj2 C4_lists_alias_live_records)) reading 0%nat
              (mkWorker PcRead false 0 3)
              (mkTask "1700" "http://x/live.flv" "show.flv" "/app/data/show.flv"
                      TaskStatusDownloading 0 1701 None "")
              100 None 2000000000 2000000001 4 (GetActiveTasks reading) 0%nat
              eq_refl eq_refl eq_refl eq_refl)
    as (s' & Hstep & _ & Hview).
  - vm_compute. discriminate.
  - vm_compute. reflexivity.
  - exists s'. split; [exact Hstep|]. rewrite Hview. reflexivity.
Defined.

(** ** How one step changes a task record *)

Lemma task_step_ID t t' : task_step t t' → ID t' = ID t.
Proof. by destruct 1. Qed.

Lemma heap_insert_inv (h : list Task) p x q y :
  <[p := x]> h !! q = Some y → (q = p ∧ y = x) ∨ (q ≠ p ∧ h !! q = Some y).
Proof.
  intros H. destruct (decide (p = q)) as [->|Hne].
  - left. apply list_lookup_insert_Some in H as [(_ & -> & _)|[? _]]; done.
  - right. by rewrite list_lookup_insert_ne in H.
Qed.

Lemma list_alter_inv {A} (f : A → A) (h : list A) p q y :
  alter f p h !! q = Some y →
  (q = p ∧ ∃ x, h !! p = Some x ∧ y = f x) ∨ (q ≠ p ∧ h !! q = Some y).
Proof.
  intros H. destruct (decide (p = q)) as [->|Hne].
  - left. rewrite list_lookup_alter_eq in H.
    destruct (h !! q) as [x|]; simplify_eq/=. eauto.
  - right. by rewrite list_lookup_alter_ne in H.
Qed.

Lemma list_snoc_inv {A} (h : list A) x q y :
  (h ++ [x]) !! q = Some y →
  h !! q = Some y ∨ (q = length h ∧ h !! q = None ∧ y = x).
Proof.
  intros H. destruct (decide (q < length h)%nat) as [Hlt|Hge].
  - left. by rewrite lookup_app_l in H.
  - right. rewrite lookup_app_r in H by lia.
    apply list_lookup_singleton_Some in H as [Hq ->].
    split; [lia|]. split; [|done]. apply lookup_ge_None_2. lia.
Qed.

(** Splits a worker step into the regions of [startDownload]; afterwards the
    new world is an explicit term. *)
Ltac worker_cases H inp w t Hw Ht Hpc :=
  unfold startDownload_step in H;
  destruct (workers _ !! _) as [w|] eqn:Hw; [|discriminate H];
  destruct (heap _ !! _) as [t|] eqn:Ht; [|discriminate H];
  cbn [mbind option_bind] in H;
  destruct (at_pc w) eqn:Hpc; destruct inp; try discriminate H;
  repeat match type of H with
         | context [match ?x with _ => _ end] => destruct x eqn:?
         | context [if ?x then _ else _] => destruct x eqn:?
         end;
  unfold fail, handleDownloadError, completeTask in H;
  rewrite ?Ht in H; cbn [mbind option_bind] in H;
  try discriminate H;
  injection H as <-.

Lemma step_heap s ev s' q t' :
  step s ev = Some s' → heap s' !! q = Some t' →
  (∃ t, heap s !! q = Some t ∧ task_step t t')
  ∨ (heap s !! q = None ∧ Status t' = TaskStatusDownloading
     ∧ EndTime t' = None ∧ FileSize t' = 0).
Proof.
  intros Hstep Hq. destruct ev as [url fn nid nst|tid now|tid rm|tid rm|p inp];
    simpl in Hstep.
  - injection Hstep as <-. unfold CreateTask in Hq. simpl in Hq.
    apply list_snoc_inv in Hq as [Hq|(-> & Hn & ->)].
    + left. eauto using task_step.
    + right. done.
  - injection Hstep as <-. unfold StopTask in Hq.
    destruct (activeTasks (d s) !! tid) as [p|]; simpl in Hq.
    + rewrite cancel_if_registered_heap in Hq.
      apply list_alter_inv in Hq as [(-> & x & Hx & ->)|[_ Hq]];
        left; eauto using task_step.
    + left; eauto using task_step.
  - injection Hstep as <-. unfold DeleteActiveTask in Hq.
    destruct (activeTasks (d s) !! tid) as [p|]; [destruct rm|]; simpl in Hq;
      rewrite ?cancel_if_registered_heap in Hq; left; eauto using task_step.
  - injection Hstep as <-. unfold DeleteCompletedTask in Hq.
    destruct (completedTasks (d s) !! tid) as [p|]; [destruct rm|]; simpl in Hq;
      left; eauto using task_step.
  - worker_cases Hstep inp w t Hw Ht Hpc; simpl in Hq; left;
      first [ apply heap_insert_inv in Hq as [[-> ->]|[_ Hq]]
            | apply list_alter_inv in Hq as [(-> & x & Hx & ->)|[_ Hq]]
            | idtac ];
      simplify_eq; eauto using task_step.
Qed.

(** ** The status invariant *)

Lemma task_step_ended t t' :
  task_step t t' → ended_iff_not_downloading t → ended_iff_not_downloading t'.
Proof.
  unfold ended_iff_not_downloading. destruct 1; simpl; try done;
    intros _; split; eauto; discriminate.
Qed.

(** C5. In every state the system can reach, by any interleaving of
    creation, stop, deletion and worker regions (progress flush, completion,
    error), every task record has [EndTime] set exactly when its status is
    not downloading. *)
Theorem C5_ended_iff_not_downloading s :
  reach unconstrained s →
  ∀ p t, heap s !! p = Some t →
         (is_Some (EndTime t) ↔ Status t ≠ TaskStatusDownloading).
Proof.
  induction 1 as [dir|s ev s' _ IH _ Hstep]; intros p t Hp.
  - discriminate.
  - destruct (step_heap _ _ _ _ _ Hstep Hp) as [(t0 & Ht0 & Hts)|(_ & Hst & Hend & _)].
    + eapply task_step_ended; [done|]. by eapply IH.
    + rewrite Hst, Hend. split; [by intros [? ?]|done].
Qed.

Lemma reach_run G s evs s' :
  reach G s →
  (∀ s0 ev, G s0 ev) →
  run s evs = Some s' → reach G s'.
Proof.
  intros Hs HG. revert s Hs. induction evs as [|ev evs IH]; intros s Hs Hrun.
  - by simplify_eq/=.
  - simpl in Hrun. destruct (step s ev) as [s1|] eqn:Hstep; [|done].
    simpl in Hrun. eapply IH; [|done]. eapply reach_step; eauto.
Qed.

Lemma C5_ended_iff_not_downloading_witness :
  let t := mkTask "1700" "http://x/live.flv" "show.flv" "/app/data/show.flv"
                  TaskStatusCompleted 0 1701 (Some 50) "" in
  heap (after (to_read_loop ++ [EStopTask "1700" 50])) !! 0%nat = Some t
  ∧ (is_Some (EndTime t) ↔ Status t ≠ TaskStatusDownloading).
Proof.
  split; [reflexivity|].
  apply (C5_ended_iff_not_downloading
           (after (to_read_loop ++ [EStopTask "1700" 50]))
           (reach_run unconstrained (New "/app/data")
              (to_read_loop ++ [EStopTask "1700" 50]) _
              (reach_New _ "/app/data") (λ _ _, I) eq_refl)
           0%nat).
  reflexivity.
Defined.

(** ** Byte counters *)


(** ** Byte counters *)

Lemma cancel_if_registered_workers taskID s q w' :
  workers (cancel_if_registered taskID s) !! q = Some w' →
  ∃ w, workers s !! q = Some w ∧ totalBytes w' = totalBytes w
       ∧ at_pc w' = at_pc w.
Proof.
  unfold cancel_if_registered. destruct (cancelFuncs (d s) !! taskID) as [c|].
  - simpl. intros [(-> & x & Hx & ->)|[_ H]]%list_alter_inv; eauto.
  - eauto.
Qed.

Lemma cancel_if_registered_length taskID s :
  length (workers (cancel_if_registered taskID s)) = length (workers s).
Proof.
  unfold cancel_if_registered. destruct (cancelFuncs (d s) !! taskID) as [c|];
    simpl; by rewrite ?length_alter.
Qed.

Ltac inv_lookup H :=
  first [ apply heap_insert_inv in H as [[? ?]|[? H]]
        | apply list_alter_inv in H as [(? & ? & ? & ?)|[? H]] ];
  simplify_eq.

Ltac decide_bools :=
  repeat match goal with
         | H : bool_decide _ = true |- _ => apply bool_decide_eq_true in H
         | H : bool_decide _ = false |- _ => apply bool_decide_eq_false in H
         end.

Lemma step_counters s ev s' q w' t' :
  length (workers s) = length (heap s) →
  step s ev = Some s' →
  workers s' !! q = Some w' → heap s' !! q = Some t' →
  (workers s !! q = None ∧ heap s !! q = None
   ∧ w' = mkWorker PcStart false 0 0 ∧ FileSize t' = 0)
  ∨ ∃ w t, workers s !! q = Some w ∧ heap s !! q = Some t
         ∧ counter_change ev q w t w' t'.
Proof.
  intros HL Hstep Hw' Ht'.
  destruct ev as [url fn nid nst|tid now|tid rm|tid rm|p inp]; simpl in Hstep.
  - injection Hstep as <-. unfold CreateTask in Hw', Ht'. simpl in Hw', Ht'.
    apply list_snoc_inv in Hw' as [Hw'|(-> & Hwn & ->)];
      apply list_snoc_inv in Ht' as [Ht'|(Hq & Htn & ->)].
    + right. eexists _, _. split; [done|]. split; [done|]. by apply cc_quiet.
    + apply lookup_lt_Some in Hw'. lia.
    + apply lookup_lt_Some in Ht'. lia.
    + left. done.
  - injection Hstep as <-. unfold StopTask in Hw', Ht'.
    destruct (activeTasks (d s) !! tid) as [p|]; simpl in Hw', Ht'.
    + apply cancel_if_registered_workers in Hw' as (w & Hw & Htot & Hpc).
      rewrite cancel_if_registered_heap in Ht'.
      right. inv_lookup Ht'; eexists _, _; (split; [done|]); (split; [done|]);
        apply cc_quiet; simpl; congruence.
    + right. eexists _, _. split; [done|]. split; [done|]. by apply cc_quiet.
  - injection Hstep as <-. unfold DeleteActiveTask in Hw', Ht'.
    destruct (activeTasks (d s) !! tid) as [p|]; [destruct rm|]; simpl in Hw', Ht';
      rewrite ?cancel_if_registered_heap in Ht';
      try apply cancel_if_registered_workers in Hw' as (w & Hw' & Htot & Hpc);
      right; eexists _, _; (split; [done|]); (split; [done|]);
      apply cc_quiet; simpl; congruence.
  - injection Hstep as <-. unfold DeleteCompletedTask in Hw', Ht'.
    destruct (completedTasks (d s) !! tid) as [p|]; [destruct rm|]; simpl in Hw', Ht';
      right; eexists _, _; (split; [done|]); (split; [done|]);
      by apply cc_quiet.
  - right. worker_cases Hstep inp w t Hw Ht Hpc; decide_bools;
      cbn [workers heap goto with_workers with_heap with_partitions with_handles]
        in Hw', Ht';
      inv_lookup Hw'; try inv_lookup Ht'; simplify_eq;
      eexists _, _; (split; [eassumption|]); (split; [eassumption|]);
      first [ by (apply cc_quiet; simpl; rewrite ?Hpc; auto)
            | by (apply cc_open; simpl; rewrite ?Hpc; auto)
            | by (eapply cc_read; simpl; eauto)
            | by (apply cc_complete; simpl; rewrite ?Hpc; auto) ].
Qed.

Lemma step_lengths s ev s' :
  step s ev = Some s' →
  (length (heap s) ≤ length (heap s'))%nat
  ∧ (length (workers s) = length (heap s) → length (workers s') = length (heap s')).
Proof.
  intros Hstep.
  destruct ev as [url fn nid nst|tid now|tid rm|tid rm|p inp]; simpl in Hstep.
  - injection Hstep as <-. unfold CreateTask. simpl. rewrite !length_app. simpl. lia.
  - injection Hstep as <-. unfold StopTask.
    destruct (activeTasks (d s) !! tid) as [p|]; simpl; [|lia].
    rewrite length_alter, cancel_if_registered_heap, cancel_if_registered_length. lia.
  - injection Hstep as <-. unfold DeleteActiveTask.
    destruct (activeTasks (d s) !! tid) as [p|]; [destruct rm|]; simpl;
      rewrite ?cancel_if_registered_heap, ?cancel_if_registered_length; lia.
  - injection Hstep as <-. unfold DeleteCompletedTask.
    destruct (completedTasks (d s) !! tid) as [p|]; [destruct rm|]; simpl; lia.
  - worker_cases Hstep inp w t Hw Ht Hpc; simpl;
      rewrite ?length_alter, ?length_insert; lia.
Qed.

Lemma counters_ok_New dataDir : counters_ok (New dataDir).
Proof. split; [done|]. intros q w t Hw. discriminate. Qed.

Lemma counter_change_ok ev s q w t w' t' :
  counter_fits s ev → workers s !! q = Some w →
  counter_change ev q w t w' t' →
  0 <= totalBytes w ∧ FileSize t <= totalBytes w
    ∧ (before_loop (at_pc w) = true → totalBytes w = 0) →
  (0 <= totalBytes w' ∧ FileSize t' <= totalBytes w'
    ∧ (before_loop (at_pc w') = true → totalBytes w' = 0))
  ∧ FileSize t <= FileSize t'.
Proof.
  intros Hfits Hw Hch (H0 & Hle & Hbefore).
  destruct Hch as [Hf Ht Hb|Hf Ht Hb|n err ns nl now -> Hn Ht Hf Hb|Hf Ht Hb].
  - rewrite Hf, Ht. split; [|lia]. split; [lia|]. split; [lia|]. auto.
  - rewrite Hf, Ht. specialize (Hbefore Hb). split; [|lia]. split; [lia|]. split; [lia|done].
  - specialize (Hfits w Hw Hn). simpl in Hfits.
    rewrite wrap64_small in Ht by lia.
    rewrite Hb. destruct Hf as [Hf|Hf]; rewrite Hf, ?Ht; split; try lia;
      (split; [lia|]); (split; [lia|done]).
  - rewrite Hf, Ht, Hb. split; [|lia]. split; [lia|]. split; [lia|done].
Qed.

Lemma counters_ok_step s ev s' :
  counters_ok s → counter_fits s ev → step s ev = Some s' → counters_ok s'.
Proof.
  intros [HL HJ] Hfits Hstep. split.
  - by apply (step_lengths _ _ _ Hstep).
  - intros q w' t' Hw' Ht'.
    destruct (step_counters _ _ _ _ _ _ HL Hstep Hw' Ht')
      as [(_ & _ & -> & Hf)|(w & t & Hw & Ht & Hch)].
    + simpl. rewrite Hf. done.
    + by destruct (counter_change_ok _ _ _ _ _ _ _ Hfits Hw Hch (HJ _ _ _ Hw Ht)).
Qed.

Lemma reach_counters_ok s : reach counter_fits s → counters_ok s.
Proof.
  induction 1; eauto using counters_ok_New, counters_ok_step.
Qed.

(** One step never lowers the byte count of a task record. *)
Lemma FileSize_step s ev s' q t :
  counters_ok s → counter_fits s ev → step s ev = Some s' →
  heap s !! q = Some t →
  ∃ t', heap s' !! q = Some t' ∧ FileSize t <= FileSize t'.
Proof.
  intros [HL HJ] Hfits Hstep Ht.
  destruct (step_lengths _ _ _ Hstep) as [Hgrow HL'].
  pose proof (lookup_lt_Some _ _ _ Ht) as Hlt.
  destruct (lookup_lt_is_Some_2 (heap s') q) as [t' Ht']; [lia|].
  destruct (lookup_lt_is_Some_2 (workers s') q) as [w' Hw']; [rewrite HL' by done; lia|].
  exists t'. split; [done|].
  destruct (step_counters _ _ _ _ _ _ HL Hstep Hw' Ht')
    as [(_ & Hnone & _)|(w & t0 & Hw & Ht0 & Hch)]; [congruence|].
  assert (t0 = t) as -> by congruence.
  by destruct (counter_change_ok _ _ _ _ _ _ _ Hfits Hw Hch (HJ _ _ _ Hw Ht)).
Qed.

(** C8. Take any state the system can reach and any later state, the
    environment keeping every worker's byte counter inside [int64]: a task
    record read in the first state is still there in the second, and its
    byte count has not decreased. Flushes, completion, errors, stop and
    deletion are all among the steps in between. *)
Theorem C8_bytes_written_monotone s s' :
  reach counter_fits s → steps counter_fits s s' →
  ∀ p t, heap s !! p = Some t →
         ∃ t', heap s' !! p = Some t' ∧ FileSize t <= FileSize t'.
Proof.
  intros Hreach%reach_counters_ok Hsteps. induction Hsteps as [s|s ev s1 s' HG Hstep _ IH];
    intros p t Hp.
  - exists t. split; [done|lia].
  - destruct (FileSize_step _ _ _ _ _ Hreach HG Hstep Hp) as (t1 & Hp1 & Hle1).
    destruct (IH (counters_ok_step _ _ _ Hreach HG Hstep) p t1 Hp1) as (t' & Hp' & Hle').
    exists t'. split; [done|lia].
Qed.

Lemma run_steps G s evs s' :
  guarded G s evs → run s evs = Some s' → steps G s s'.
Proof.
  revert s. induction evs as [|ev evs IH]; intros s HG Hrun; simpl in *.
  - injection Hrun as <-. apply steps_refl.
  - destruct HG as [Hev HG]. destruct (step s ev) as [s1|] eqn:Hstep; [|done].
    eapply steps_cons; eauto.
Qed.

Lemma reach_steps G s s' : reach G s → steps G s s' → reach G s'.
Proof.
  intros Hs Hsteps. induction Hsteps; eauto using reach_step.
Qed.

Lemma C8_bytes_written_monotone_witness :
  ∃ t t', heap reading !! 0%nat = Some t
        ∧ heap (after (to_read_loop ++ [first_chunk])) !! 0%nat = Some t'
        ∧ FileSize t <= FileSize t'.
Proof.
  assert (reach counter_fits reading) as Hreach.
  { apply (reach_steps _ (New "/app/data")); [apply reach_New|].
    apply (run_steps _ _ to_read_loop); [|reflexivity].
    cbn. repeat split. }
  assert (steps counter_fits reading (after (to_read_loop ++ [first_chunk]))) as Hsteps.
  { apply (run_steps _ _ [first_chunk]); [|reflexivity].
    split; [|by cbn]. intros w Hw _. injection Hw as <-. by vm_compute. }
  destruct (C8_bytes_written_monotone _ _ Hreach Hsteps 0%nat _ eq_refl)
    as (t' & Ht' & Hle).
  eexists _, t'. split; [reflexivity|]. split; [exact Ht'|exact Hle].
Defined.

(** ** The registry *)

Lemma list_alter_as_insert {A} (f : A → A) (h : list A) p x :
  h !! p = Some x → alter f p h = <[p := f x]> h.
Proof.
  revert p. induction h as [|y h IH]; intros [|p] H; simplify_eq/=; [done|].
  f_equal. by apply IH.
Qed.

Lemma registry_ok_finalise a c h p t t' :
  registry_ok_of a c h → h !! p = Some t → ID t' = ID t →
  registry_ok_of (delete (ID t) a) (<[ID t := p]> c) (<[p := t']> h).
Proof.
  intros (Ha & Hc & Hdisj) Hp HID. pose proof (lookup_lt_Some _ _ _ Hp) as Hlt.
  split; [|split].
  - intros k q [Hk Hq]%lookup_delete_Some.
    destruct (Ha k q Hq) as (t1 & Ht1 & Hid1 & Hst & Hend).
    exists t1. split; [|done]. rewrite list_lookup_insert_ne; [done|].
    intros ->. congruence.
  - intros k q [[<- <-]|[Hk Hq]]%lookup_insert_Some.
    + exists t'. split; [|done]. by apply list_lookup_insert_eq.
    + destruct (Hc k q Hq) as (t1 & Ht1 & Hid1).
      exists t1. split; [|done]. rewrite list_lookup_insert_ne; [done|].
      intros ->. congruence.
  - intros k [q [Hk Hq]%lookup_delete_Some]. rewrite lookup_insert_ne by done.
    apply Hdisj. eauto.
Qed.

Lemma registry_ok_quiet a c h (f : Task → Task) p :
  (∀ t, ID (f t) = ID t ∧ Status (f t) = Status t ∧ EndTime (f t) = EndTime t) →
  registry_ok_of a c h → registry_ok_of a c (alter f p h).
Proof.
  intros Hf (Ha & Hc & Hdisj). split; [|split; [|done]].
  - intros k q Hq. destruct (Ha k q Hq) as (t1 & Ht1 & Hid1 & Hst & Hend).
    destruct (decide (p = q)) as [->|Hne].
    + exists (f t1). rewrite list_lookup_alter_eq, Ht1.
      destruct (Hf t1) as (-> & -> & ->). done.
    + exists t1. by rewrite list_lookup_alter_ne.
  - intros k q Hq. destruct (Hc k q Hq) as (t1 & Ht1 & Hid1).
    destruct (decide (p = q)) as [->|Hne].
    + exists (f t1). rewrite list_lookup_alter_eq, Ht1.
      destruct (Hf t1) as (-> & _). done.
    + exists t1. by rewrite list_lookup_alter_ne.
Qed.

Lemma registry_ok_create a c h t0 :
  registry_ok_of a c h → (∀ t, t ∈ h → ID t ≠ ID t0) →
  Status t0 = TaskStatusDownloading → EndTime t0 = None →
  registry_ok_of (<[ID t0 := length h]> a) c (h ++ [t0]).
Proof.
  intros (Ha & Hc & Hdisj) Hfresh Hst Hend.
  assert (c !! ID t0 = None) as Hnew.
  { destruct (c !! ID t0) as [q|] eqn:Hq; [|done].
    destruct (Hc _ _ Hq) as (t1 & Ht1 & Hid1).
    destruct (Hfresh t1); [|done]. by eapply list_elem_of_lookup_2. }
  split; [|split].
  - intros k q [[<- <-]|[Hk Hq]]%lookup_insert_Some.
    + exists t0. split; [|done]. rewrite lookup_app_r by lia.
      by rewrite Nat.sub_diag.
    + destruct (Ha k q Hq) as (t1 & Ht1 & ?). exists t1.
      split; [|done]. by apply lookup_app_l_Some.
  - intros k q Hq. destruct (Hc k q Hq) as (t1 & Ht1 & ?). exists t1.
    split; [|done]. by apply lookup_app_l_Some.
  - intros k [q [[<- <-]|[Hk Hq]]%lookup_insert_Some]; [done|].
    apply Hdisj. eauto.
Qed.

Lemma registry_ok_delete_active a c h k :
  registry_ok_of a c h → registry_ok_of (delete k a) c h.
Proof.
  intros (Ha & Hc & Hdisj). split; [|split; [done|]].
  - intros k' q [_ Hq]%lookup_delete_Some. eauto.
  - intros k' [q [_ Hq]%lookup_delete_Some]. apply Hdisj. eauto.
Qed.

Lemma registry_ok_delete_completed a c h k :
  registry_ok_of a c h → registry_ok_of a (delete k c) h.
Proof.
  intros (Ha & Hc & Hdisj). split; [done|split].
  - intros k' q [_ Hq]%lookup_delete_Some. eauto.
  - intros k' Hk'. apply lookup_delete_None. right. by apply Hdisj.
Qed.

Lemma registry_ok_step s ev s' :
  registry_ok s → fresh_id s ev → step s ev = Some s' → registry_ok s'.
Proof.
  unfold registry_ok. intros Hok Hfresh Hstep.
  destruct ev as [url fn nid nst|tid now|tid rm|tid rm|p inp]; simpl in Hstep.
  - injection Hstep as <-. unfold CreateTask. simpl.
    match goal with
    | |- registry_ok_of _ _ (_ ++ [?t0]) =>
        exact (registry_ok_create _ _ _ t0 Hok Hfresh eq_refl eq_refl)
    end.
  - injection Hstep as <-. unfold StopTask.
    destruct (activeTasks (d s) !! tid) as [p|] eqn:Hp; simpl; [|done].
    rewrite cancel_if_registered_d, cancel_if_registered_heap.
    destruct Hok as (Ha & Hc & Hdisj).
    destruct (Ha _ _ Hp) as (t & Ht & <- & _).
    rewrite (list_alter_as_insert _ _ _ _ Ht).
    by apply registry_ok_finalise.
  - injection Hstep as <-. unfold DeleteActiveTask.
    destruct (activeTasks (d s) !! tid) as [p|]; [destruct rm|]; simpl;
      rewrite ?cancel_if_registered_d, ?cancel_if_registered_heap;
      auto using registry_ok_delete_active.
  - injection Hstep as <-. unfold DeleteCompletedTask.
    destruct (completedTasks (d s) !! tid) as [p|]; [destruct rm|]; simpl;
      auto using registry_ok_delete_completed.
  - worker_cases Hstep inp w t Hw Ht Hpc; simpl;
      first [ done
            | by apply registry_ok_finalise
            | by apply registry_ok_quiet ].
Qed.

Lemma reach_registry_ok s : reach fresh_id s → registry_ok s.
Proof.
  induction 1 as [dir|]; eauto using registry_ok_step.
  split; [|split]; intros ??; done.
Qed.



(** The guard on ids is needed: when the clock hands out the same reading
    twice, an id is in both partitions and the finished record is found
    after the active one was deleted. *)
Remark ids_must_be_unique :
  let s := after [ECreateTask "http://x/a.flv" "a" 1700 1701; EStopTask "1700" 5;
                  ECreateTask "http://x/b.flv" "b" 1700 1702] in
  activeTasks (d s) !! "1700" = Some 1%nat
  ∧ GetTask (DeleteActiveTask s "1700" Removed).1 "1700" = Some 0%nat.
Proof. vm_compute. done. Qed.

(** ** Exit of a worker *)


(** After [StopTask] has finalised a task, a worker blocked in [Read] that
    gets an error finalises it again: [EndTime] is written a second time and
    the status becomes error. *)
Remark stop_then_read_error_finalises_twice :
  let s1 := after (to_read_loop ++ [EStopTask "1700" 50]) in
  let s2 := after stopped_then_read_error in
  (EndTime <$> heap s1 !! 0%nat = Some (Some 50)
   ∧ Status <$> heap s1 !! 0%nat = Some TaskStatusCompleted)
  ∧ (EndTime <$> heap s2 !! 0%nat = Some (Some 60)
     ∧ Status <$> heap s2 !! 0%nat = Some TaskStatusError).
Proof. vm_compute. done. Qed.

Lemma heap_insert_here (h : list Task) p t x : h !! p = Some t → <[p := x]> h !! p = Some x.
Proof. intros H%lookup_lt_Some. by apply list_lookup_insert_eq. Qed.



(** ** End of stream *)

Lemma total_app cs cs' : total (cs ++ cs') = total cs + total cs'.
Proof. unfold total. induction cs as [|c cs IH]; simpl; lia. Qed.

Lemma total_nonneg cs : Forall chunk_ok cs → 0 <= total cs.
Proof.
  unfold total, chunk_ok. induction 1 as [|c cs Hc _ IH]; simpl; lia.
Qed.

Ltac world_simpl :=
  cbn [workers heap d goto with_workers with_heap with_partitions with_handles
       activeTasks completedTasks cancelFuncs clients].

Lemma region_create s p ctx T taskID now0 :
  worker_at s p PcCreate ctx T taskID →
  ∃ s1, step s (EWorker p (InCreate None now0)) = Some s1
      ∧ worker_at s1 p PcSelect ctx 0 taskID.
Proof.
  intros (w & t & Hw & Ht & Hpc & Hctx & HT & Hid).
  cbn [step]. unfold startDownload_step. rewrite Hw, Ht. cbn [mbind option_bind]. rewrite Hpc.
  eexists. split; [reflexivity|]. eexists _, t. world_simpl.
  rewrite list_lookup_alter_eq, Hw. done.
Qed.

Lemma region_select s p T taskID :
  worker_at s p PcSelect false T taskID →
  ∃ s1, step s (EWorker p InSelect) = Some s1
      ∧ worker_at s1 p PcRead false T taskID.
Proof.
  intros (w & t & Hw & Ht & Hpc & Hctx & HT & Hid).
  cbn [step]. unfold startDownload_step. rewrite Hw, Ht. cbn [mbind option_bind]. rewrite Hpc, Hctx.
  eexists. split; [reflexivity|]. eexists _, t. world_simpl.
  rewrite list_lookup_alter_eq, Hw. done.
Qed.

Lemma region_read s p ctx T taskID c err now :
  worker_at s p PcRead ctx T taskID →
  0 <= T → chunk_ok c → T + bytes c < 2 ^ 63 →
  ∃ s1, step s (EWorker p (InRead (bytes c) err None (now_since c) (now_last c) now))
        = Some s1
      ∧ worker_at s1 p (PcCheckErr err) ctx (T + bytes c) taskID.
Proof.
  intros (w & t & Hw & Ht & Hpc & Hctx & HT & Hid) H0 [Hc0 Hc1] Hfit.
  cbn [step]. unfold startDownload_step. rewrite Hw, Ht. cbn [mbind option_bind]. rewrite Hpc.
  case_bool_decide as Hpos.
  - rewrite HT, wrap64_small by lia. case_bool_decide;
      (eexists; split; [reflexivity|]); world_simpl.
    + eexists _, _. world_simpl. rewrite !list_lookup_alter_eq, Hw, Ht. done.
    + eexists _, t. world_simpl. rewrite !list_lookup_alter_eq, Hw. done.
  - eexists. split; [reflexivity|]. eexists _, t. world_simpl.
    rewrite list_lookup_alter_eq, Hw. simpl. repeat split; try done.
    unfold set_pc. simpl. lia.
Qed.

Lemma region_check_none s p ctx T taskID now :
  worker_at s p (PcCheckErr None) ctx T taskID →
  ∃ s1, step s (EWorker p (InCheckErr now)) = Some s1
      ∧ worker_at s1 p PcSelect ctx T taskID.
Proof.
  intros (w & t & Hw & Ht & Hpc & Hctx & HT & Hid).
  cbn [step]. unfold startDownload_step. rewrite Hw, Ht. cbn [mbind option_bind]. rewrite Hpc.
  eexists. split; [reflexivity|]. eexists _, t. world_simpl.
  rewrite list_lookup_alter_eq, Hw. done.
Qed.

Lemma region_check_eof s p ctx T taskID now :
  worker_at s p (PcCheckErr (Some EOF)) ctx T taskID →
  ∃ s1 t1, step s (EWorker p (InCheckErr now)) = Some s1
      ∧ heap s1 !! p = Some t1
      ∧ Status t1 = TaskStatusCompleted ∧ FileSize t1 = T
      ∧ EndTime t1 = Some now
      ∧ activeTasks (d s1) !! taskID = None
      ∧ completedTasks (d s1) !! taskID = Some p.
Proof.
  intros (w & t & Hw & Ht & Hpc & Hctx & HT & Hid).
  cbn [step]. unfold startDownload_step. rewrite Hw, Ht. cbn [mbind option_bind]. rewrite Hpc.
  unfold completeTask. rewrite Ht. cbn [mbind option_bind].
  eexists _, _. split; [reflexivity|]. world_simpl.
  rewrite (heap_insert_here _ _ _ _ Ht), Hid, lookup_delete_eq, lookup_insert_eq.
  done.
Qed.

Lemma run_cons s ev evs : run s (ev :: evs) = step s ev ≫= λ s', run s' evs.
Proof. reflexivity. Qed.

Lemma run_app s evs evs' : run s (evs ++ evs') = run s evs ≫= λ s', run s' evs'.
Proof.
  revert s. induction evs as [|ev evs IH]; intros s; [done|].
  simpl. destruct (step s ev); simpl; [apply IH|done].
Qed.

(** A turn of the loop that reads [c] without error: the worker is back at
    the head of the loop, its counter raised by the bytes read. *)
Lemma loop_turn_continues s p T taskID c now :
  worker_at s p PcSelect false T taskID →
  0 <= T → chunk_ok c → T + bytes c < 2 ^ 63 →
  ∃ s1, run s (loop_turn p c None now) = Some s1
      ∧ worker_at s1 p PcSelect false (T + bytes c) taskID.
Proof.
  intros Hat H0 Hc Hfit. unfold loop_turn.
  destruct (region_select _ _ _ _ Hat) as (s1 & Hs1 & Hat1).
  destruct (region_read _ _ _ _ _ c None now Hat1 H0 Hc Hfit) as (s2 & Hs2 & Hat2).
  destruct (region_check_none _ _ _ _ _ now Hat2) as (s3 & Hs3 & Hat3).
  exists s3. split; [|done].
  rewrite run_cons, Hs1. cbn [mbind option_bind].
  rewrite run_cons, Hs2. cbn [mbind option_bind].
  rewrite run_cons, Hs3. done.
Qed.

(** The last turn: the read comes with [io.EOF]. *)
Lemma loop_turn_eof s p T taskID c now :
  worker_at s p PcSelect false T taskID →
  0 <= T → chunk_ok c → T + bytes c < 2 ^ 63 →
  ∃ s1 t1, run s (loop_turn p c (Some EOF) now) = Some s1
      ∧ heap s1 !! p = Some t1
      ∧ Status t1 = TaskStatusCompleted ∧ FileSize t1 = T + bytes c
      ∧ EndTime t1 = Some now
      ∧ activeTasks (d s1) !! taskID = None
      ∧ completedTasks (d s1) !! taskID = Some p.
Proof.
  intros Hat H0 Hc Hfit. unfold loop_turn.
  destruct (region_select _ _ _ _ Hat) as (s1 & Hs1 & Hat1).
  destruct (region_read _ _ _ _ _ c (Some EOF) now Hat1 H0 Hc Hfit) as (s2 & Hs2 & Hat2).
  destruct (region_check_eof _ _ _ _ _ now Hat2) as (s3 & t3 & Hs3 & Hrest).
  exists s3, t3. split; [|done].
  rewrite run_cons, Hs1. cbn [mbind option_bind].
  rewrite run_cons, Hs2. cbn [mbind option_bind].
  rewrite run_cons, Hs3. done.
Qed.

Lemma loop_turns s p T taskID cs final now :
  worker_at s p PcSelect false T taskID →
  0 <= T → Forall chunk_ok (cs ++ [final]) → T + total (cs ++ [final]) < 2 ^ 63 →
  ∃ s1 t1, run s ((cs ≫= λ c, loop_turn p c None now)
                  ++ loop_turn p final (Some EOF) now) = Some s1
      ∧ heap s1 !! p = Some t1
      ∧ Status t1 = TaskStatusCompleted
      ∧ FileSize t1 = T + total (cs ++ [final])
      ∧ EndTime t1 = Some now
      ∧ activeTasks (d s1) !! taskID = None
      ∧ completedTasks (d s1) !! taskID = Some p.
Proof.
  revert s T. induction cs as [|c cs IH]; intros s T Hat H0 Hok Hfit.
  - simpl in *. apply Forall_cons in Hok as [Hc _].
    unfold total in *. simpl in *. rewrite Z.add_0_r in *.
    by apply loop_turn_eof.
  - simpl in Hok. apply Forall_cons in Hok as [Hc Hok].
    pose proof (total_nonneg _ Hok) as Hnn.
    change (total ((c :: cs) ++ [final])) with (bytes c + total (cs ++ [final])) in *.
    destruct (loop_turn_continues _ _ _ _ c now Hat H0 Hc) as (s1 & Hs1 & Hat1); [lia|].
    destruct (IH s1 (T + bytes c) Hat1) as (s2 & t2 & Hs2 & Hrest);
      [destruct Hc; lia|done|lia|].
    exists s2, t2. split.
    + change ((c :: cs) ≫= (λ c0, loop_turn p c0 None now))
        with (loop_turn p c None now ++ (cs ≫= (λ c0, loop_turn p c0 None now))).
      rewrite <- app_assoc, run_app, Hs1. exact Hs2.
    + by rewrite Z.add_assoc.
Qed.

(** C6. A worker that opens the file, reads the chunks [cs] and a last chunk
    that comes with end of stream, with no write failing and the context not
    cancelled, ends with its task completed, [EndTime] set, the task moved
    to the finished partition and [FileSize] equal to the sum of all bytes
    read, whatever part of them the periodic flushes had shown before. *)
Theorem C6_end_of_stream_total s p w t now0 cs final now :
  workers s !! p = Some w → heap s !! p = Some t →
  at_pc w = PcCreate → ctxDone w = false →
  Forall chunk_ok (cs ++ [final]) → total (cs ++ [final]) < 2 ^ 63 →
  ∃ s' t', run s (download p now0 cs final now) = Some s'
         ∧ heap s' !! p = Some t'
         ∧ Status t' = TaskStatusCompleted
         ∧ FileSize t' = total (cs ++ [final])
         ∧ EndTime t' = Some now
         ∧ activeTasks (d s') !! ID t = None
         ∧ completedTasks (d s') !! ID t = Some p.
Proof.
  intros Hw Ht Hpc Hctx Hok Hfit.
  assert (worker_at s p PcCreate false (totalBytes w) (ID t)) as Hat.
  { exists w, t. done. }
  destruct (region_create _ _ _ _ _ now0 Hat) as (s1 & Hs1 & Hat1).
  destruct (loop_turns _ _ _ _ cs final now Hat1) as (s2 & t2 & Hs2 & Hrest);
    [lia|done|lia|].
  exists s2, t2. split; [|done].
  unfold download. rewrite run_cons, Hs1. exact Hs2.
Qed.

Lemma C6_end_of_stream_total_witness :
  ∃ s' t', run connected (download 0%nat 3 first_chunks last_chunk 99) = Some s'
         ∧ heap s' !! 0%nat = Some t'
         ∧ Status t' = TaskStatusCompleted
         ∧ FileSize t' = 157
         ∧ EndTime t' = Some 99.
Proof.
  destruct (C6_end_of_stream_total connected 0%nat
              (mkWorker PcCreate false 0 0)
              (mkTask "1700" "http://x/live.flv" "show.flv" "/app/data/show.flv"
                      TaskStatusDownloading 0 1701 None "")
              3 first_chunks last_chunk 99 eq_refl eq_refl eq_refl eq_refl)
    as (s' & t' & Hrun & Ht' & Hst & Hsize & Hend & _).
  - repeat constructor; unfold chunk_ok, bufSize; simpl; lia.
  - vm_compute. reflexivity.
  - exists s', t'. split; [exact Hrun|]. split; [exact Ht'|]. split; [exact Hst|].
    split; [exact Hsize|exact Hend].
Defined.

(** * Further properties of the downloader *)

Lemma reach_mono (G G' : World → event → Prop) s :
  (∀ s0 ev, G s0 ev → G' s0 ev) → reach G s → reach G' s.
Proof. intros HG. induction 1; eauto using reach. Qed.

Lemma reach_any G s : reach G s → reach unconstrained s.
Proof. by apply reach_mono. Qed.

Lemma reach_lengths s : reach unconstrained s → length (workers s) = length (heap s).
Proof.
  induction 1 as [dir|s ev s' _ IH _ Hstep]; [done|].
  by apply (step_lengths _ _ _ Hstep).
Qed.

(** ** Status of the tasks in each partition *)

Lemma partitions_ok_finalise a c h p t t' :
  partitions_ok_of a c h → h !! p = Some t → ID t' = ID t →
  Status t' ≠ TaskStatusDownloading → is_Some (EndTime t') →
  partitions_ok_of (delete (ID t) a) (<[ID t := p]> c) (<[p := t']> h).
Proof.
  intros (Ha & Hc) Hp HID Hst Hend. pose proof (lookup_lt_Some _ _ _ Hp) as Hlt.
  split.
  - intros k q [Hk Hq]%lookup_delete_Some.
    destruct (Ha k q Hq) as (t1 & Ht1 & Hid1 & ?).
    exists t1. split; [|done]. rewrite list_lookup_insert_ne; [done|].
    intros ->. congruence.
  - intros k q [[<- <-]|[Hk Hq]]%lookup_insert_Some.
    + exists t'. split; [|done]. by apply list_lookup_insert_eq.
    + destruct (Hc k q Hq) as (t1 & Ht1 & Hid1 & ?).
      exists t1. split; [|done]. rewrite list_lookup_insert_ne; [done|].
      intros ->. congruence.
Qed.

Lemma partitions_ok_quiet a c h (f : Task → Task) p :
  (∀ t, ID (f t) = ID t ∧ Status (f t) = Status t ∧ EndTime (f t) = EndTime t) →
  partitions_ok_of a c h → partitions_ok_of a c (alter f p h).
Proof.
  intros Hf (Ha & Hc). split.
  - intros k q Hq. destruct (Ha k q Hq) as (t1 & Ht1 & Hid1 & Hst & Hend).
    destruct (decide (p = q)) as [->|Hne].
    + exists (f t1). rewrite list_lookup_alter_eq, Ht1.
      destruct (Hf t1) as (-> & -> & ->). done.
    + exists t1. by rewrite list_lookup_alter_ne.
  - intros k q Hq. destruct (Hc k q Hq) as (t1 & Ht1 & Hid1 & Hst & Hend).
    destruct (decide (p = q)) as [->|Hne].
    + exists (f t1). rewrite list_lookup_alter_eq, Ht1.
      destruct (Hf t1) as (-> & -> & ->). done.
    + exists t1. by rewrite list_lookup_alter_ne.
Qed.

Lemma partitions_ok_create a c h t0 :
  partitions_ok_of a c h →
  Status t0 = TaskStatusDownloading → EndTime t0 = None →
  partitions_ok_of (<[ID t0 := length h]> a) c (h ++ [t0]).
Proof.
  intros (Ha & Hc) Hst Hend. split.
  - intros k q [[<- <-]|[Hk Hq]]%lookup_insert_Some.
    + exists t0. split; [|done]. rewrite lookup_app_r by lia.
      by rewrite Nat.sub_diag.
    + destruct (Ha k q Hq) as (t1 & Ht1 & ?). exists t1.
      split; [|done]. by apply lookup_app_l_Some.
  - intros k q Hq. destruct (Hc k q Hq) as (t1 & Ht1 & ?). exists t1.
    split; [|done]. by apply lookup_app_l_Some.
Qed.

Lemma partitions_ok_delete_active a c h k :
  partitions_ok_of a c h → partitions_ok_of (delete k a) c h.
Proof.
  intros (Ha & Hc). split; [|done].
  intros k' q [_ Hq]%lookup_delete_Some. eauto.
Qed.

Lemma partitions_ok_delete_completed a c h k :
  partitions_ok_of a c h → partitions_ok_of a (delete k c) h.
Proof.
  intros (Ha & Hc). split; [done|].
  intros k' q [_ Hq]%lookup_delete_Some. eauto.
Qed.

Lemma partitions_ok_step s ev s' :
  partitions_ok s → step s ev = Some s' → partitions_ok s'.
Proof.
  unfold partitions_ok. intros Hok Hstep.
  destruct ev as [url fn nid nst|tid now|tid rm|tid rm|p inp]; simpl in Hstep.
  - injection Hstep as <-. unfold CreateTask. simpl.
    match goal with
    | |- partitions_ok_of _ _ (_ ++ [?t0]) =>
        exact (partitions_ok_create _ _ _ t0 Hok eq_refl eq_refl)
    end.
  - injection Hstep as <-. unfold StopTask.
    destruct (activeTasks (d s) !! tid) as [p|] eqn:Hp; simpl; [|done].
    rewrite cancel_if_registered_d, cancel_if_registered_heap.
    pose proof Hok as (Ha & Hc).
    destruct (Ha _ _ Hp) as (t & Ht & <- & _).
    rewrite (list_alter_as_insert _ _ _ _ Ht).
    apply partitions_ok_finalise; simpl; eauto.
  - injection Hstep as <-. unfold DeleteActiveTask.
    destruct (activeTasks (d s) !! tid) as [p|]; [destruct rm|]; simpl;
      rewrite ?cancel_if_registered_d, ?cancel_if_registered_heap;
      auto using partitions_ok_delete_active.
  - injection Hstep as <-. unfold DeleteCompletedTask.
    destruct (completedTasks (d s) !! tid) as [p|]; [destruct rm|]; simpl;
      auto using partitions_ok_delete_completed.
  - worker_cases Hstep inp w t Hw Ht Hpc; simpl;
      first [ done
            | by (apply partitions_ok_finalise; simpl; eauto)
            | by apply partitions_ok_quiet ].
Qed.

Lemma reach_partitions_ok G s : reach G s → partitions_ok s.
Proof.
  induction 1 as [dir|]; eauto using partitions_ok_step.
  split; intros ??; done.
Qed.

(** X1. In every reachable state, a task found by [GetTask] carries the id
    that was asked for; if the id is in the active partition the task is
    still downloading and has no end time, and otherwise (it was found in
    the finished partition) its status is terminal and its end time set. *)
Theorem X1_GetTask_status s taskID p :
  reach unconstrained s → GetTask s taskID = Some p →
  ∃ t, heap s !! p = Some t ∧ ID t = taskID
     ∧ (is_Some (activeTasks (d s) !! taskID) →
        Status t = TaskStatusDownloading ∧ EndTime t = None)
     ∧ (activeTasks (d s) !! taskID = None →
        completedTasks (d s) !! taskID = Some p
        ∧ Status t ≠ TaskStatusDownloading ∧ is_Some (EndTime t)).
Proof.
  intros (Ha & Hc)%reach_partitions_ok. unfold GetTask.
  destruct (activeTasks (d s) !! taskID) as [q|] eqn:Hq.
  - intros [= ->]. destruct (Ha _ _ Hq) as (t & Ht & Hid & Hst & Hend).
    exists t. repeat split; try done.
  - intros Hp. destruct (Hc _ _ Hp) as (t & Ht & Hid & Hst & Hend).
    exists t. split; [done|]. split; [done|]. split; [by intros [? ?]|done].
Qed.

Lemma X1_GetTask_status_witness :
  ∃ t, heap (after (to_read_loop ++ [EStopTask "1700" 50])) !! 0%nat = Some t
     ∧ ID t = "1700" ∧ Status t ≠ TaskStatusDownloading.
Proof.
  destruct (X1_GetTask_status (after (to_read_loop ++ [EStopTask "1700" 50]))
              "1700" 0%nat
              (reach_run unconstrained (New "/app/data")
                 (to_read_loop ++ [EStopTask "1700" 50]) _
                 (reach_New _ "/app/data") (λ _ _, I) eq_refl)
              eq_refl)
    as (t & Ht & Hid & _ & Hfin).
  exists t. split; [exact Ht|]. split; [exact Hid|].
  exact (proj1 (proj2 (Hfin eq_refl))).
Defined.




(** ** What never changes in a task record *)

Lemma task_step_fields t t' :
  task_step t t' →
  ID t' = ID t ∧ URL t' = URL t ∧ FileName t' = FileName t
  ∧ FilePath t' = FilePath t ∧ StartTime t' = StartTime t
  ∧ (Status t ≠ TaskStatusDownloading →
     Status t' ≠ TaskStatusDownloading).
Proof. destruct 1; simpl; repeat split; done. Qed.

Lemma step_heap_forward s ev s' p t :
  step s ev = Some s' → heap s !! p = Some t →
  ∃ t', heap s' !! p = Some t' ∧ task_step t t'.
Proof.
  intros Hstep Hp.
  destruct (step_lengths _ _ _ Hstep) as [Hgrow _].
  pose proof (lookup_lt_Some _ _ _ Hp) as Hlt.
  destruct (lookup_lt_is_Some_2 (heap s') p) as [t' Ht']; [lia|].
  exists t'. split; [done|].
  destruct (step_heap _ _ _ _ _ Hstep Ht') as [(t0 & Ht0 & Hts)|(Hnone & _)];
    congruence.
Qed.

(** X3. A task record is never freed and its identity never changes: in any
    later state the record is still at its place with the same id, URL, file
    name, file path and start time; and once its status is terminal it is
    never downloading again. *)
Theorem X3_identity_is_immutable s s' :
  steps unconstrained s s' →
  ∀ p t, heap s !! p = Some t →
    ∃ t', heap s' !! p = Some t'
        ∧ ID t' = ID t ∧ URL t' = URL t ∧ FileName t' = FileName t
        ∧ FilePath t' = FilePath t ∧ StartTime t' = StartTime t
        ∧ (Status t ≠ TaskStatusDownloading →
           Status t' ≠ TaskStatusDownloading).
Proof.
  induction 1 as [s|s ev s1 s' _ Hstep _ IH]; intros p t Hp.
  - exists t. done.
  - destruct (step_heap_forward _ _ _ _ _ Hstep Hp) as (t1 & Hp1 & Hts).
    destruct (IH _ _ Hp1) as (t' & Hp' & Hid & Hurl & Hfn & Hfp & Hstart & Hst).
    apply task_step_fields in Hts as (Hid1 & Hurl1 & Hfn1 & Hfp1 & Hstart1 & Hst1).
    exists t'. split; [done|]. rewrite Hid, Hurl, Hfn, Hfp, Hstart.
    repeat split; auto.
Qed.

Lemma X3_identity_is_immutable_witness :
  ∃ t', heap (after stopped_then_read_error) !! 0%nat = Some t'
      ∧ ID t' = "1700" ∧ FilePath t' = "/app/data/show.flv".
Proof.
  destruct (X3_identity_is_immutable reading (after stopped_then_read_error)
              (run_steps unconstrained reading
                 [EStopTask "1700" 50;
                  EWorker 0%nat (InRead 0 (Some (Err "context canceled")) None 4 5 6);
                  EWorker 0%nat (InCheckErr 60)] _
                 (conj I (conj I (conj I I))) eq_refl)
              0%nat _ eq_refl)
    as (t' & Ht' & Hid & _ & _ & Hfp & _).
  exists t'. split; [exact Ht'|]. split; [exact Hid|exact Hfp].
Defined.

(** ** The error message *)

Lemma append_nonempty a s x : String a s +:+ x ≠ "".
Proof. discriminate. Qed.

Lemma step_status s ev s' q w' t' :
  length (workers s) = length (heap s) →
  step s ev = Some s' →
  workers s' !! q = Some w' → heap s' !! q = Some t' →
  (workers s !! q = None ∧ heap s !! q = None
   ∧ Status t' = TaskStatusDownloading ∧ ErrorMessage t' = "")
  ∨ ∃ w t, workers s !! q = Some w ∧ heap s !! q = Some t
         ∧ status_change s ev q w t w' t'.
Proof.
  intros HL Hstep Hw' Ht'.
  destruct ev as [url fn nid nst|tid now|tid rm|tid rm|p inp]; simpl in Hstep.
  - injection Hstep as <-. unfold CreateTask in Hw', Ht'. simpl in Hw', Ht'.
    apply list_snoc_inv in Hw' as [Hw'|(-> & Hwn & ->)];
      apply list_snoc_inv in Ht' as [Ht'|(Hq & Htn & ->)].
    + right. eexists _, _. split; [done|]. split; [done|]. by apply sc_quiet.
    + apply lookup_lt_Some in Hw'. lia.
    + apply lookup_lt_Some in Ht'. lia.
    + left. done.
  - injection Hstep as <-. unfold StopTask in Hw', Ht'.
    destruct (activeTasks (d s) !! tid) as [p|] eqn:Hp; simpl in Hw', Ht'.
    + apply cancel_if_registered_workers in Hw' as (w & Hw & Htot & Hpc).
      rewrite cancel_if_registered_heap in Ht'.
      right. inv_lookup Ht'; eexists _, _; (split; [done|]); (split; [done|]).
      * by eapply sc_stop.
      * apply sc_quiet; [done|done|]. by rewrite Hpc.
    + right. eexists _, _. split; [done|]. split; [done|]. by apply sc_quiet.
  - injection Hstep as <-. unfold DeleteActiveTask in Hw', Ht'.
    destruct (activeTasks (d s) !! tid) as [p|]; [destruct rm|]; simpl in Hw', Ht';
      rewrite ?cancel_if_registered_heap in Ht';
      try apply cancel_if_registered_workers in Hw' as (w & Hw' & Htot & Hpc);
      right; eexists _, _; (split; [done|]); (split; [done|]);
      apply sc_quiet; rewrite ?Hpc; done.
  - injection Hstep as <-. unfold DeleteCompletedTask in Hw', Ht'.
    destruct (completedTasks (d s) !! tid) as [p|]; [destruct rm|]; simpl in Hw', Ht';
      right; eexists _, _; (split; [done|]); (split; [done|]);
      by apply sc_quiet.
  - right. worker_cases Hstep inp w t Hw Ht Hpc; decide_bools;
      cbn [workers heap goto with_workers with_heap with_partitions with_handles]
        in Hw', Ht';
      inv_lookup Hw'; try inv_lookup Ht'; simplify_eq;
      eexists _, _; (split; [eassumption|]); (split; [eassumption|]);
      first [ by (apply sc_quiet; simpl; rewrite ?Hpc; auto)
            | by (apply sc_error; simpl; auto using append_nonempty)
            | by (apply sc_complete; simpl; rewrite ?Hpc; auto) ].
Qed.

Lemma error_detail_ok_step s ev s' :
  partitions_ok s → error_detail_ok s → step s ev = Some s' → error_detail_ok s'.
Proof.
  intros (Ha & _) [HL HE] Hstep. split.
  - by apply (step_lengths _ _ _ Hstep).
  - intros q w' t' Hw' Ht'.
    destruct (step_status _ _ _ _ _ _ HL Hstep Hw' Ht')
      as [(_ & _ & Hst & Hmsg)|(w & t & Hw & Ht & Hch)].
    + rewrite Hst, Hmsg. split; [split; done|done].
    + destruct (HE _ _ _ Hw Ht) as [Hiff Hexit].
      assert (Status t ≠ TaskStatusError → ErrorMessage t = "") as Hclean.
      { intros Hne. destruct (decide (ErrorMessage t = "")) as [|Hm]; [done|].
        by apply Hiff in Hm. }
      destruct Hch as [Hst Hmsg Hpc|Hst Hmsg Hpc|Hst Hmsg Hpc|tid now -> Hact Hst Hmsg Hpc].
      * rewrite Hst, Hmsg. split; [done|]. auto.
      * rewrite Hst. split; [split; done|done].
      * rewrite Hst, Hmsg, Hclean.
        -- split; [split; done|done].
        -- intros Herr. apply Hexit in Herr. congruence.
      * destruct (Ha _ _ Hact) as (t0 & Ht0 & _ & Hdown & _).
        assert (t0 = t) as -> by congruence.
        rewrite Hst, Hmsg, Hclean by (rewrite Hdown; discriminate).
        split; [split; done|done].
Qed.

Lemma reach_error_detail_ok s : reach unconstrained s → error_detail_ok s.
Proof.
  induction 1 as [dir|s ev s' Hreach IH _ Hstep].
  - split; [done|]. intros q w t Hw. discriminate.
  - eapply error_detail_ok_step; eauto using reach_partitions_ok.
Qed.

(** X4. In every reachable state a task has an error message exactly when
    its status is error: no completed, stopped or downloading task carries
    a message, and every failed task carries one. *)
Theorem X4_error_message_iff_error s :
  reach unconstrained s →
  ∀ p t, heap s !! p = Some t →
         (Status t = TaskStatusError ↔ ErrorMessage t ≠ "").
Proof.
  intros Hreach p t Ht.
  destruct (reach_error_detail_ok _ Hreach) as [HL HE].
  destruct (lookup_lt_is_Some_2 (workers s) p) as [w Hw].
  { rewrite HL. by eapply lookup_lt_Some. }
  by destruct (HE _ _ _ Hw Ht).
Qed.

Lemma X4_error_message_iff_error_witness :
  ∃ t, heap (after stopped_then_read_error) !! 0%nat = Some t
     ∧ (Status t = TaskStatusError ↔ ErrorMessage t ≠ "").
Proof.
  eexists. split; [reflexivity|].
  apply (X4_error_message_iff_error (after stopped_then_read_error)
           (reach_run unconstrained (New "/app/data") stopped_then_read_error _
              (reach_New _ "/app/data") (λ _ _, I) eq_refl)
           0%nat).
  reflexivity.
Defined.

(** ** Cancellation handles *)

Lemma handles_ok_workers cf ws h (g : Worker → Worker) p :
  (∀ w, registered_pc (at_pc w) = true → registered_pc (at_pc (g w)) = true) →
  handles_ok_of cf ws h → handles_ok_of cf (alter g p ws) h.
Proof.
  intros Hg Hok k c Hk. destruct (Hok k c Hk) as (w & t & Hw & Ht & Hid & Hreg).
  destruct (decide (p = c)) as [->|Hne].
  - exists (g w), t. rewrite list_lookup_alter_eq, Hw. auto.
  - exists w, t. by rewrite list_lookup_alter_ne.
Qed.

Lemma handles_ok_heap_insert cf ws h p t t' :
  h !! p = Some t → ID t' = ID t →
  handles_ok_of cf ws h → handles_ok_of cf ws (<[p := t']> h).
Proof.
  intros Hp Hid' Hok k c Hk. destruct (Hok k c Hk) as (w & t0 & Hw & Ht & Hid & Hreg).
  destruct (decide (p = c)) as [->|Hne].
  - exists w, t'. rewrite (heap_insert_here _ _ _ _ Hp).
    split; [done|]. split; [done|]. split; [congruence|done].
  - exists w, t0. by rewrite list_lookup_insert_ne.
Qed.

Lemma handles_ok_heap_alter cf ws h (f : Task → Task) p :
  (∀ t, ID (f t) = ID t) →
  handles_ok_of cf ws h → handles_ok_of cf ws (alter f p h).
Proof.
  intros Hf Hok k c Hk. destruct (Hok k c Hk) as (w & t0 & Hw & Ht & Hid & Hreg).
  destruct (decide (p = c)) as [->|Hne].
  - exists w, (f t0). rewrite list_lookup_alter_eq, Ht, Hf. done.
  - exists w, t0. by rewrite list_lookup_alter_ne.
Qed.

Lemma handles_ok_register cf ws h (g : Worker → Worker) p w t :
  ws !! p = Some w → h !! p = Some t → registered_pc (at_pc (g w)) = true →
  handles_ok_of cf ws h → handles_ok_of (<[ID t := p]> cf) (alter g p ws) h.
Proof.
  intros Hw Ht Hreg Hok k c [[<- <-]|[Hk Hc]]%lookup_insert_Some.
  - exists (g w), t. by rewrite list_lookup_alter_eq, Hw.
  - destruct (Hok k c Hc) as (w0 & t0 & Hw0 & Ht0 & Hid & Hreg0).
    exists w0, t0. rewrite list_lookup_alter_ne; [done|]. intros ->. congruence.
Qed.

Lemma handles_ok_unregister cf ws h (g : Worker → Worker) p t :
  h !! p = Some t →
  handles_ok_of cf ws h → handles_ok_of (delete (ID t) cf) (alter g p ws) h.
Proof.
  intros Ht Hok k c [Hk Hc]%lookup_delete_Some.
  destruct (Hok k c Hc) as (w0 & t0 & Hw0 & Ht0 & Hid & Hreg0).
  exists w0, t0. rewrite list_lookup_alter_ne; [done|]. intros ->. congruence.
Qed.

Lemma handles_ok_snoc cf ws h w0 t0 :
  handles_ok_of cf ws h → handles_ok_of cf (ws ++ [w0]) (h ++ [t0]).
Proof.
  intros Hok k c Hk. destruct (Hok k c Hk) as (w & t & Hw & Ht & ?).
  exists w, t. split; [by apply lookup_app_l_Some|].
  split; [by apply lookup_app_l_Some|done].
Qed.

Lemma handles_ok_cancel taskID s h :
  handles_ok_of (cancelFuncs (d s)) (workers s) h →
  handles_ok_of (cancelFuncs (d s)) (workers (cancel_if_registered taskID s)) h.
Proof.
  unfold cancel_if_registered. destruct (cancelFuncs (d s) !! taskID); [|done].
  simpl. by apply handles_ok_workers.
Qed.

Ltac handles_heap :=
  first [ done
        | by (eapply handles_ok_heap_insert; eauto)
        | by (apply handles_ok_heap_alter) ].

Lemma handles_ok_step s ev s' :
  handles_ok s → step s ev = Some s' → handles_ok s'.
Proof.
  unfold handles_ok. intros Hok Hstep.
  destruct ev as [url fn nid nst|tid now|tid rm|tid rm|p inp]; simpl in Hstep.
  - injection Hstep as <-. unfold CreateTask. simpl. by apply handles_ok_snoc.
  - injection Hstep as <-. unfold StopTask.
    destruct (activeTasks (d s) !! tid) as [p|] eqn:Hp; simpl; [|done].
    rewrite cancel_if_registered_d, cancel_if_registered_heap.
    by apply handles_ok_heap_alter, handles_ok_cancel.
  - injection Hstep as <-. unfold DeleteActiveTask.
    destruct (activeTasks (d s) !! tid) as [p|]; [destruct rm|]; simpl;
      rewrite ?cancel_if_registered_d, ?cancel_if_registered_heap;
      auto using handles_ok_cancel.
  - injection Hstep as <-. unfold DeleteCompletedTask.
    by destruct (completedTasks (d s) !! tid) as [p|]; [destruct rm|].
  - worker_cases Hstep inp w t Hw Ht Hpc; simpl;
      first [ by (eapply handles_ok_register; eauto)
            | by (eapply handles_ok_unregister; eauto)
            | (apply handles_ok_workers; [done|]; handles_heap) ].
Qed.

Lemma reach_handles_ok G s : reach G s → handles_ok s.
Proof.
  induction 1 as [dir|]; eauto using handles_ok_step.
  intros ??; done.
Qed.

Lemma step_handles_paired s ev s' :
  clients (d s) = cancelFuncs (d s) → step s ev = Some s' →
  clients (d s') = cancelFuncs (d s').
Proof.
  intros Heq Hstep.
  destruct ev as [url fn nid nst|tid now|tid rm|tid rm|p inp]; simpl in Hstep.
  - by injection Hstep as <-.
  - injection Hstep as <-. unfold StopTask.
    destruct (activeTasks (d s) !! tid) as [p|]; simpl;
      by rewrite ?cancel_if_registered_d.
  - injection Hstep as <-. unfold DeleteActiveTask.
    destruct (activeTasks (d s) !! tid) as [p|]; [destruct rm|]; simpl;
      by rewrite ?cancel_if_registered_d.
  - injection Hstep as <-. unfold DeleteCompletedTask.
    by destruct (completedTasks (d s) !! tid) as [p|]; [destruct rm|].
  - worker_cases Hstep inp w t Hw Ht Hpc; simpl; congruence.
Qed.

(** X5. In every reachable state the cancellation registry holds no stale
    handle: a cancel function registered under an id belongs to a goroutine
    that has started and has not yet returned, and whose task carries that
    id; and an HTTP client is registered under exactly the same ids. *)
Theorem X5_no_stale_handles s :
  reach unconstrained s →
  (∀ taskID c, cancelFuncs (d s) !! taskID = Some c →
     ∃ w t, workers s !! c = Some w ∧ heap s !! c = Some t ∧ ID t = taskID
          ∧ at_pc w ≠ PcStart ∧ at_pc w ≠ PcDone)
  ∧ dom (clients (d s)) = dom (cancelFuncs (d s)).
Proof.
  intros Hreach. split.
  - intros k c Hk.
    destruct (reach_handles_ok _ _ Hreach k c Hk) as (w & t & Hw & Ht & Hid & Hreg).
    exists w, t. repeat split; try done; intros Hpc; by rewrite Hpc in Hreg.
  - f_equal. induction Hreach; eauto using step_handles_paired.
Qed.

Lemma X5_no_stale_handles_witness :
  ∃ w, workers reading !! 0%nat = Some w ∧ at_pc w ≠ PcDone.
Proof.
  destruct (proj1 (X5_no_stale_handles reading
                     (reach_run unconstrained (New "/app/data") to_read_loop _
                        (reach_New _ "/app/data") (λ _ _, I) eq_refl))
              "1700" 0%nat eq_refl)
    as (w & t & Hw & _ & _ & _ & Hdone).
  exists w. split; [exact Hw|exact Hdone].
Defined.

(** ** Unique ids *)

Lemma step_new_record s ev s' q t' :
  step s ev = Some s' → heap s !! q = None → heap s' !! q = Some t' →
  ∃ url fileName nowID nowStart,
    ev = ECreateTask url fileName nowID nowStart ∧ ID t' = pretty nowID.
Proof.
  intros Hstep Hnone Hq.
  destruct ev as [url fn nid nst|tid now|tid rm|tid rm|p inp]; simpl in Hstep.
  - injection Hstep as <-. unfold CreateTask in Hq. simpl in Hq.
    apply list_snoc_inv in Hq as [Hq|(-> & _ & ->)]; [congruence|].
    by eexists _, _, _, _.
  - injection Hstep as <-. unfold StopTask in Hq.
    destruct (activeTasks (d s) !! tid) as [p|]; simpl in Hq; [|congruence].
    rewrite cancel_if_registered_heap in Hq.
    apply list_alter_inv in Hq as [(-> & x & Hx & ->)|[_ Hq]]; congruence.
  - injection Hstep as <-. unfold DeleteActiveTask in Hq.
    destruct (activeTasks (d s) !! tid) as [p|]; [destruct rm|]; simpl in Hq;
      rewrite ?cancel_if_registered_heap in Hq; congruence.
  - injection Hstep as <-. unfold DeleteCompletedTask in Hq.
    destruct (completedTasks (d s) !! tid) as [p|]; [destruct rm|]; simpl in Hq;
      congruence.
  - worker_cases Hstep inp w t Hw Ht Hpc; simpl in Hq;
      first [ congruence
            | apply heap_insert_inv in Hq as [[? ?]|[_ Hq]]; congruence
            | apply list_alter_inv in Hq as [(? & x & Hx & ?)|[_ Hq]]; congruence ].
Qed.

Lemma ids_unique_step s ev s' :
  ids_unique (heap s) → fresh_id s ev → step s ev = Some s' → ids_unique (heap s').
Proof.
  intros Huniq Hfresh Hstep p q t t' Hp Hq Hid.
  destruct (heap s !! p) as [t0|] eqn:Hp0; destruct (heap s !! q) as [t0'|] eqn:Hq0.
  - destruct (step_heap _ _ _ _ _ Hstep Hp) as [(t1 & Ht1 & Hts)|(Hnone & _)];
      [|congruence].
    destruct (step_heap _ _ _ _ _ Hstep Hq) as [(t1' & Ht1' & Hts')|(Hnone & _)];
      [|congruence].
    apply task_step_ID in Hts, Hts'. eapply Huniq; eauto. congruence.
  - destruct (step_new_record _ _ _ _ _ Hstep Hq0 Hq) as (? & ? & nid & ? & -> & Hnew).
    destruct (step_heap _ _ _ _ _ Hstep Hp) as [(t1 & Ht1 & Hts)|(Hnone & _)];
      [|congruence].
    apply task_step_ID in Hts. destruct (Hfresh t0).
    + by eapply list_elem_of_lookup_2.
    + congruence.
  - destruct (step_new_record _ _ _ _ _ Hstep Hp0 Hp) as (? & ? & nid & ? & -> & Hnew).
    destruct (step_heap _ _ _ _ _ Hstep Hq) as [(t1 & Ht1 & Hts)|(Hnone & _)];
      [|congruence].
    apply task_step_ID in Hts. destruct (Hfresh t0').
    + by eapply list_elem_of_lookup_2.
    + congruence.
  - destruct (step_new_record _ _ _ _ _ Hstep Hp0 Hp) as (? & ? & nid & ? & -> & _).
    simpl in Hstep. injection Hstep as <-. unfold CreateTask in Hp, Hq.
    simpl in Hp, Hq.
    apply list_snoc_inv in Hp as [Hp|(-> & _)]; [congruence|].
    apply list_snoc_inv in Hq as [Hq|(-> & _)]; [congruence|done].
Qed.

Lemma reach_ids_unique s : reach fresh_id s → ids_unique (heap s).
Proof.
  induction 1 as [dir|]; eauto using ids_unique_step.
  intros ???? H. discriminate H.
Qed.

Lemma handles_complete_workers cf ws h (g : Worker → Worker) p w :
  ws !! p = Some w →
  (registered_pc (at_pc (g w)) = true → registered_pc (at_pc w) = true) →
  handles_complete_of cf ws h → handles_complete_of cf (alter g p ws) h.
Proof.
  intros Hw Hg Hok q w' t Hq Ht Hreg.
  destruct (decide (p = q)) as [->|Hne].
  - rewrite list_lookup_alter_eq, Hw in Hq. injection Hq as <-. eauto.
  - rewrite list_lookup_alter_ne in Hq by done. eauto.
Qed.

Lemma handles_complete_heap_insert cf ws h p t t' :
  h !! p = Some t → ID t' = ID t →
  handles_complete_of cf ws h → handles_complete_of cf ws (<[p := t']> h).
Proof.
  intros Hp Hid Hok q w t1 Hw Ht1 Hreg.
  apply heap_insert_inv in Ht1 as [[-> ->]|[_ Ht1]]; [|eauto].
  rewrite Hid. eauto.
Qed.

Lemma handles_complete_heap_alter cf ws h (f : Task → Task) p :
  (∀ t, ID (f t) = ID t) →
  handles_complete_of cf ws h → handles_complete_of cf ws (alter f p h).
Proof.
  intros Hf Hok q w t1 Hw Ht1 Hreg.
  apply list_alter_inv in Ht1 as [(-> & x & Hx & ->)|[_ Ht1]]; [|eauto].
  rewrite Hf. eauto.
Qed.

Lemma handles_complete_register cf ws h (g : Worker → Worker) p t :
  ids_unique h → h !! p = Some t →
  handles_complete_of cf ws h →
  handles_complete_of (<[ID t := p]> cf) (alter g p ws) h.
Proof.
  intros Huniq Ht Hok q w' t1 Hq Ht1 Hreg.
  destruct (decide (p = q)) as [->|Hne].
  - assert (t1 = t) as -> by congruence. apply lookup_insert_eq.
  - rewrite list_lookup_alter_ne in Hq by done.
    rewrite lookup_insert_ne; [eauto|]. intros Hid. apply Hne. eapply Huniq; eauto.
Qed.

Lemma handles_complete_unregister cf ws h (g : Worker → Worker) p w t :
  ids_unique h → ws !! p = Some w → h !! p = Some t →
  registered_pc (at_pc (g w)) = false →
  handles_complete_of cf ws h →
  handles_complete_of (delete (ID t) cf) (alter g p ws) h.
Proof.
  intros Huniq Hw Ht Hg Hok q w' t1 Hq Ht1 Hreg.
  destruct (decide (p = q)) as [->|Hne].
  - rewrite list_lookup_alter_eq, Hw in Hq. injection Hq as <-. congruence.
  - rewrite list_lookup_alter_ne in Hq by done.
    rewrite lookup_delete_ne; [eauto|]. intros Hid. apply Hne. eapply Huniq; eauto.
Qed.

Lemma handles_complete_snoc cf ws h w0 t0 :
  length ws = length h → registered_pc (at_pc w0) = false →
  handles_complete_of cf ws h → handles_complete_of cf (ws ++ [w0]) (h ++ [t0]).
Proof.
  intros HL Hreg0 Hok q w t Hw Ht Hreg.
  apply list_snoc_inv in Hw as [Hw|(-> & _ & ->)];
    apply list_snoc_inv in Ht as [Ht|(Hq & _ & ->)].
  - eauto.
  - apply lookup_lt_Some in Hw. lia.
  - apply lookup_lt_Some in Ht. lia.
  - congruence.
Qed.

Lemma handles_complete_cancel taskID s h :
  handles_complete_of (cancelFuncs (d s)) (workers s) h →
  handles_complete_of (cancelFuncs (d s)) (workers (cancel_if_registered taskID s)) h.
Proof.
  unfold cancel_if_registered. destruct (cancelFuncs (d s) !! taskID) as [c|]; [|done].
  simpl. intros Hok q w' t Hq Ht Hreg.
  apply list_alter_inv in Hq as [(-> & x & Hx & ->)|[_ Hq]]; eauto.
Qed.

Ltac complete_heap :=
  first [ done
        | by (eapply handles_complete_heap_insert; eauto)
        | by (apply handles_complete_heap_alter) ].

Lemma handles_complete_step s ev s' :
  length (workers s) = length (heap s) → ids_unique (heap s) →
  handles_complete_of (cancelFuncs (d s)) (workers s) (heap s) →
  step s ev = Some s' →
  handles_complete_of (cancelFuncs (d s')) (workers s') (heap s').
Proof.
  intros HL Huniq Hok Hstep.
  destruct ev as [url fn nid nst|tid now|tid rm|tid rm|p inp]; simpl in Hstep.
  - injection Hstep as <-. unfold CreateTask. simpl.
    by apply handles_complete_snoc.
  - injection Hstep as <-. unfold StopTask.
    destruct (activeTasks (d s) !! tid) as [p|] eqn:Hp; simpl; [|done].
    rewrite cancel_if_registered_d, cancel_if_registered_heap.
    by apply handles_complete_heap_alter, handles_complete_cancel.
  - injection Hstep as <-. unfold DeleteActiveTask.
    destruct (activeTasks (d s) !! tid) as [p|]; [destruct rm|]; simpl;
      rewrite ?cancel_if_registered_d, ?cancel_if_registered_heap;
      auto using handles_complete_cancel.
  - injection Hstep as <-. unfold DeleteCompletedTask.
    by destruct (completedTasks (d s) !! tid) as [p|]; [destruct rm|].
  - worker_cases Hstep inp w t Hw Ht Hpc; simpl;
      first [ by (eapply handles_complete_register; eauto)
            | by (eapply handles_complete_unregister; eauto)
            | (eapply handles_complete_workers;
               [exact Hw | by rewrite Hpc | complete_heap]) ].
Qed.

Lemma reach_handles_complete s :
  reach fresh_id s →
  handles_complete_of (cancelFuncs (d s)) (workers s) (heap s).
Proof.
  induction 1 as [dir|s ev s' Hreach IH Hfresh Hstep].
  - intros ??? H. discriminate H.
  - eapply handles_complete_step; eauto using reach_ids_unique.
    apply reach_lengths. by eapply reach_any.
Qed.

Lemma reach_fresh_via_run evs s :
  guarded fresh_id (New "/app/data") evs →
  run (New "/app/data") evs = Some s → reach fresh_id s.
Proof.
  intros HG Hrun. apply (reach_steps _ (New "/app/data")); [apply reach_New|].
  by apply (run_steps _ _ evs).
Qed.

Lemma reading_fresh : reach fresh_id reading.
Proof.
  apply (reach_fresh_via_run to_read_loop); [|reflexivity].
  split; [|by cbn]. intros t Ht. by apply not_elem_of_nil in Ht.
Qed.

(** X6. When no clock reading is used for two tasks, no two task records
    ever share an id, and no id is in the active and in the finished
    partition at once. *)
Theorem X6_ids_unique_partitions_disjoint s :
  reach fresh_id s →
  (∀ p q t t', heap s !! p = Some t → heap s !! q = Some t' →
               ID t = ID t' → p = q)
  ∧ (∀ taskID, is_Some (activeTasks (d s) !! taskID) →
               completedTasks (d s) !! taskID = None).
Proof.
  intros Hreach. split.
  - by apply reach_ids_unique.
  - by destruct (reach_registry_ok _ Hreach) as (_ & _ & Hdisj).
Qed.

Lemma X6_ids_unique_partitions_disjoint_witness :
  completedTasks (d reading) !! "1700" = None.
Proof.
  apply (proj2 (X6_ids_unique_partitions_disjoint reading reading_fresh) "1700").
  by eexists.
Defined.



Lemma active_handle s taskID p w :
  reach fresh_id s → activeTasks (d s) !! taskID = Some p →
  workers s !! p = Some w → registered_pc (at_pc w) = true →
  cancelFuncs (d s) !! taskID = Some p.
Proof.
  intros Hreach Hact Hw Hreg.
  destruct (reach_registry_ok _ Hreach) as (Ha & _).
  destruct (Ha _ _ Hact) as (t & Ht & <- & _).
  by eapply reach_handles_complete.
Qed.



(** X8. With unique ids, a stop that arrives before the worker has run its
    first region finds no handle: it succeeds and marks the task completed,
    but the worker is left as it was, not cancelled, and its first region
    then runs as if nothing had happened. *)
Theorem X8_stop_before_registration s taskID p w now :
  reach fresh_id s →
  activeTasks (d s) !! taskID = Some p →
  workers s !! p = Some w → at_pc w = PcStart →
  let s1 := (StopTask s taskID now).1 in
  (StopTask s taskID now).2 = None
  ∧ cancelFuncs (d s) !! taskID = None
  ∧ workers s1 = workers s
  ∧ (∃ t1, heap s1 !! p = Some t1 ∧ Status t1 = TaskStatusCompleted
         ∧ completedTasks (d s1) !! taskID = Some p)
  ∧ ∃ s2 w2, startDownload_step s1 p InStart = Some s2
           ∧ workers s2 !! p = Some w2 ∧ at_pc w2 = PcNewRequest
           ∧ ctxDone w2 = ctxDone w
           ∧ cancelFuncs (d s2) !! taskID = Some p.
Proof.
  intros Hreach Hact Hw Hpc.
  destruct (reach_registry_ok _ Hreach) as (Ha & _).
  destruct (Ha _ _ Hact) as (t & Ht & Hid & _).
  assert (cancelFuncs (d s) !! taskID = None) as Hcf.
  { destruct (cancelFuncs (d s) !! taskID) as [c|] eqn:Hc; [|done].
    destruct (reach_handles_ok _ _ Hreach _ _ Hc) as (w0 & t0 & Hw0 & Ht0 & Hid0 & Hreg).
    assert (c = p) as -> by (eapply reach_ids_unique; eauto; congruence).
    assert (w0 = w) as -> by congruence. by rewrite Hpc in Hreg. }
  unfold StopTask, cancel_if_registered. rewrite Hact, Hcf. simpl.
  split; [done|]. split; [done|]. split; [done|]. split.
  - eexists. rewrite list_lookup_alter_eq, Ht. simpl.
    split; [reflexivity|]. split; [done|]. apply lookup_insert_eq.
  - unfold startDownload_step. simpl. rewrite Hw, list_lookup_alter_eq, Ht. simpl.
    rewrite Hpc. eexists _, _. split; [reflexivity|]. simpl.
    rewrite list_lookup_alter_eq, Hw. simpl.
    split; [reflexivity|]. split; [done|]. split; [done|].
    rewrite Hid. apply lookup_insert_eq.
Qed.

Lemma X8_stop_before_registration_witness :
  let s := after [ECreateTask "http://x/live.flv" "show" 1700 1701] in
  workers (StopTask s "1700" 50).1 = workers s.
Proof.
  assert (reach fresh_id (after [ECreateTask "http://x/live.flv" "show" 1700 1701]))
    as Hreach.
  { apply (reach_fresh_via_run [ECreateTask "http://x/live.flv" "show" 1700 1701]);
      [|reflexivity].
    split; [|by cbn]. intros t Ht. by apply not_elem_of_nil in Ht. }
  exact (proj1 (proj2 (proj2
           (X8_stop_before_registration _ "1700" 0%nat (mkWorker PcStart false 0 0) 50
              Hreach eq_refl eq_refl eq_refl)))).
Defined.

(** ** The API handlers *)

Lemma slice_from_prefix pre x : slice_from (pre +:+ x) (String.length pre) = Some x.
Proof.
  unfold slice_from. rewrite bool_decide_true.
  - f_equal. induction pre as [|c pre IH]; [done|]. exact IH.
  - induction pre as [|c pre IH]; simpl; [lia|].
    change (String c pre +:+ x) with (String c (pre +:+ x)). simpl. lia.
Qed.

(** X9. A stop request whose path is the route prefix followed by [taskID]
    is answered 200 exactly when the method is POST, the id is not empty and
    the id is active; the state is then the one [StopTask] gives. Every
    other answer leaves the state unchanged: 405 for another method, 400 for
    an empty id, and 500, not 404, for an id that is not active. *)
Theorem X9_handleStopTask_status s method taskID now :
  ∃ s' code b,
    handleStopTask s method (stop_prefix +:+ taskID) now = Some (s', (code, b))
    ∧ (code = StatusOK ↔
       method = "POST" ∧ taskID ≠ "" ∧ is_Some (activeTasks (d s) !! taskID))
    ∧ (code = StatusOK → s' = (StopTask s taskID now).1 ∧ b = BodySuccess)
    ∧ (code ≠ StatusOK → s' = s)
    ∧ (method ≠ "POST" → code = StatusMethodNotAllowed)
    ∧ (method = "POST" → taskID = "" → code = StatusBadRequest)
    ∧ (method = "POST" → taskID ≠ "" → activeTasks (d s) !! taskID = None →
       code = StatusInternalServerError).
Proof.
  unfold handleStopTask. case_bool_decide as Hm.
  { eexists _, _, _. split; [reflexivity|].
    split; [split; [discriminate|by intros [? _]]|].
    repeat split; try done; discriminate. }
  rewrite slice_from_prefix. simpl. case_bool_decide as Hid.
  { eexists _, _, _. split; [reflexivity|].
    split; [split; [discriminate|by intros (_ & ? & _)]|].
    repeat split; try done; discriminate. }
  unfold StopTask. destruct (activeTasks (d s) !! taskID) as [p|] eqn:Hact.
  - eexists _, _, _. split; [reflexivity|].
    split; [split; [by eauto|done]|]. repeat split; try done.
  - eexists _, _, _. split; [reflexivity|].
    split; [split; [discriminate|by intros (_ & _ & [? ?])]|].
    repeat split; try done; discriminate.
Qed.

Lemma DeleteCompletedTask_absent s taskID rm :
  completedTasks (d s) !! taskID = None →
  DeleteCompletedTask s taskID rm = (s, Some (Err ("任务不存在: " +:+ taskID))).
Proof. intros H. unfold DeleteCompletedTask. by rewrite H. Qed.

(** X10. [DeleteCompletedTask] succeeds exactly when the id is in the
    finished partition and the removal of the file does not fail (a file
    that is already gone is no failure). On success only that entry leaves
    the finished partition, and deleting the same id again fails with the
    not-found error; on failure nothing changes, so that the task stays
    listed. No task record, worker or active entry is touched either way. *)
Theorem X10_DeleteCompletedTask s taskID rm :
  let r := DeleteCompletedTask s taskID rm in
  (r.2 = None ↔
   is_Some (completedTasks (d s) !! taskID) ∧ ∀ msg, rm ≠ RemoveFailed msg)
  ∧ (r.2 = None →
     completedTasks (d r.1) = delete taskID (completedTasks (d s))
     ∧ ∀ rm', DeleteCompletedTask r.1 taskID rm'
              = (r.1, Some (Err ("任务不存在: " +:+ taskID))))
  ∧ (r.2 ≠ None → r.1 = s)
  ∧ heap r.1 = heap s ∧ workers r.1 = workers s
  ∧ activeTasks (d r.1) = activeTasks (d s).
Proof.
  unfold DeleteCompletedTask.
  destruct (completedTasks (d s) !! taskID) as [p|] eqn:Hc.
  - destruct rm as [| |msg]; simpl.
    + split; [split; [intros _; split; [eauto|discriminate]|done]|].
      split; [|split; [done|done]]. intros _. split; [done|]. intros rm'.
      by rewrite lookup_delete_eq.
    + split; [split; [intros _; split; [eauto|discriminate]|done]|].
      split; [|split; [done|done]]. intros _. split; [done|]. intros rm'.
      by rewrite lookup_delete_eq.
    + split; [split; [discriminate|]|].
      * intros [_ H]. by destruct (H msg).
      * split; [discriminate|done].
  - simpl. split; [split; [discriminate|]|].
    + intros [[? ?] _]. discriminate.
    + split; [discriminate|done].
Qed.


(** ** Deleting an active task *)

Lemma cancel_if_registered_at s taskID p w :
  cancelFuncs (d s) !! taskID = Some p → workers s !! p = Some w →
  cancel_if_registered taskID s = with_workers (alter cancel p (workers s)) s
  ∧ workers (cancel_if_registered taskID s) !! p = Some (cancel w).
Proof.
  intros Hcf Hw. unfold cancel_if_registered, cancel_ctx. rewrite Hcf.
  split; [done|]. simpl. by rewrite list_lookup_alter_eq, Hw.
Qed.

(** X11. With unique ids, when the removal of the file fails
    [DeleteActiveTask] returns the error and keeps the task in the active
    partition, but it has already cancelled the worker: a worker at the head
    of its loop then returns through the cancellation path and unregisters,
    and the task stays active, downloading and without end time although no
    goroutine works on it any more. *)
Theorem X11_failed_delete_leaves_task_active s taskID p w msg :
  reach fresh_id s →
  activeTasks (d s) !! taskID = Some p →
  workers s !! p = Some w → at_pc w = PcSelect →
  (DeleteActiveTask s taskID (RemoveFailed msg)).2
  = Some (Err ("删除文件失败: " +:+ msg))
  ∧ ∃ s3 w3 t3,
      run s [EDeleteActiveTask taskID (RemoveFailed msg);
             EWorker p InSelect; EWorker p InDeferred] = Some s3
      ∧ workers s3 !! p = Some w3 ∧ at_pc w3 = PcDone
      ∧ activeTasks (d s3) !! taskID = Some p
      ∧ heap s3 !! p = Some t3
      ∧ Status t3 = TaskStatusDownloading ∧ EndTime t3 = None
      ∧ cancelFuncs (d s3) !! taskID = None.
Proof.
  intros Hreach Hact Hw Hpc.
  assert (cancelFuncs (d s) !! taskID = Some p) as Hcf.
  { eapply active_handle; eauto. by rewrite Hpc. }
  destruct (reach_registry_ok _ Hreach) as (Ha & _).
  destruct (Ha _ _ Hact) as (t & Ht & Hid & Hst & Hend).
  destruct (cancel_if_registered_at _ _ _ _ Hcf Hw) as [Hs1 Hw1].
  split.
  { unfold DeleteActiveTask. by rewrite Hact. }
  rewrite run_cons. cbn [step]. unfold DeleteActiveTask at 1. rewrite Hact.
  cbn [fst mbind option_bind]. rewrite Hs1.
  rewrite run_cons. cbn [step]. unfold startDownload_step at 1.
  cbn [workers heap with_workers]. rewrite list_lookup_alter_eq, Hw, Ht.
  cbn [fmap option_fmap option_map mbind option_bind at_pc cancel ctxDone].
  rewrite Hpc. cbn [mbind option_bind].
  rewrite run_cons. cbn [step]. unfold startDownload_step at 1.
  cbn [workers heap goto with_workers].
  rewrite list_lookup_alter_eq, list_lookup_alter_eq, Hw, Ht.
  cbn [fmap option_fmap option_map mbind option_bind at_pc cancel set_pc].
  eexists _, _, t. split; [reflexivity|].
  cbn [workers heap d goto with_workers with_handles activeTasks cancelFuncs].
  rewrite !list_lookup_alter_eq, Hw.
  split; [reflexivity|]. split; [done|]. split; [done|]. split; [done|].
  split; [done|]. split; [done|]. rewrite Hid. apply lookup_delete_eq.
Qed.

Lemma X11_failed_delete_leaves_task_active_witness :
  ∃ s3, run (after to_file_open)
            [EDeleteActiveTask "1700" (RemoveFailed "permission denied");
             EWorker 0%nat InSelect; EWorker 0%nat InDeferred] = Some s3
      ∧ activeTasks (d s3) !! "1700" = Some 0%nat.
Proof.
  assert (reach fresh_id (after to_file_open)) as Hreach.
  { apply (reach_fresh_via_run to_file_open); [|reflexivity].
    split; [|by cbn]. intros t Ht. by apply not_elem_of_nil in Ht. }
  destruct (X11_failed_delete_leaves_task_active (after to_file_open) "1700" 0%nat
              (mkWorker PcSelect false 0 3) "permission denied"
              Hreach eq_refl eq_refl eq_refl)
    as (_ & s3 & w3 & t3 & Hrun & _ & _ & Hact & _).
  exists s3. split; [exact Hrun|exact Hact].
Defined.



(** ** Independence of tasks *)

(** X13. A task just created is found under its id by [GetTask] and is in
    the active list, whatever the registry held before; every other id is
    looked up as before, and every older task record is unchanged. *)
Theorem X13_create_then_get s url fileName nowID nowStart :
  let r := CreateTask s url fileName nowID nowStart in
  GetTask r.1 (pretty nowID) = Some r.2.1
  ∧ r.2.1 ∈ GetActiveTasks r.1
  ∧ (∀ taskID, taskID ≠ pretty nowID → GetTask r.1 taskID = GetTask s taskID)
  ∧ (∀ q t, heap s !! q = Some t → heap r.1 !! q = Some t)
  ∧ (∀ q w, workers s !! q = Some w → workers r.1 !! q = Some w).
Proof.
  unfold CreateTask, GetTask. simpl. split; [by rewrite lookup_insert_eq|].
  split.
  { apply elem_of_values. exists (pretty nowID). simpl. apply lookup_insert_eq. }
  split.
  { intros k Hk. by rewrite lookup_insert_ne. }
  split; intros; by apply lookup_app_l_Some.
Qed.

(** X14. A region of the worker of one task touches nothing of another
    task: every other task record and every other worker is unchanged, and
    so is every entry of the two partitions and of the handle registries
    under another id. No record is added or freed. *)
Theorem X14_worker_touches_only_its_task s p t inp s' :
  heap s !! p = Some t → startDownload_step s p inp = Some s' →
  (∀ q, q ≠ p → heap s' !! q = heap s !! q ∧ workers s' !! q = workers s !! q)
  ∧ (∀ taskID, taskID ≠ ID t →
       activeTasks (d s') !! taskID = activeTasks (d s) !! taskID
       ∧ completedTasks (d s') !! taskID = completedTasks (d s) !! taskID
       ∧ cancelFuncs (d s') !! taskID = cancelFuncs (d s) !! taskID
       ∧ clients (d s') !! taskID = clients (d s) !! taskID)
  ∧ dataDir (d s') = dataDir (d s)
  ∧ length (heap s') = length (heap s)
  ∧ length (workers s') = length (workers s).
Proof.
  intros Ht0 Hstep. worker_cases Hstep inp w t1 Hw Ht Hpc;
    assert (t1 = t) as -> by congruence;
    cbn [workers heap d goto with_workers with_heap with_partitions with_handles
         activeTasks completedTasks cancelFuncs clients dataDir];
    rewrite ?length_alter, ?length_insert;
    (split; [intros q Hq;
             by rewrite ?list_lookup_alter_ne, ?list_lookup_insert_ne by done|]);
    (split; [intros k Hk;
             by rewrite ?lookup_delete_ne, ?lookup_insert_ne by done|]);
    done.
Qed.

Lemma X14_worker_touches_only_its_task_witness :
  ∃ s', startDownload_step reading 0%nat
          (InRead 100 None None 2000000000 2000000001 4) = Some s'
      ∧ length (heap s') = length (heap reading).
Proof.
  destruct (startDownload_step reading 0%nat
              (InRead 100 None None 2000000000 2000000001 4)) as [s'|] eqn:Hstep;
    [|discriminate Hstep].
  exists s'. split; [reflexivity|].
  exact (proj1 (proj2 (proj2 (proj2
           (X14_worker_touches_only_its_task reading 0%nat _ _ s' eq_refl Hstep))))).
Defined.

(** ** Reported progress *)

Lemma reach_FileSize_nonneg s :
  reach counter_fits s → ∀ p t, heap s !! p = Some t → 0 <= FileSize t.
Proof.
  induction 1 as [dir|s ev s' Hreach IH Hfits Hstep]; intros p t' Ht'.
  - discriminate.
  - destruct (reach_counters_ok _ Hreach) as [HL HJ].
    destruct (step_lengths _ _ _ Hstep) as [_ HL'].
    destruct (lookup_lt_is_Some_2 (workers s') p) as [w' Hw'].
    { rewrite HL' by done. by eapply lookup_lt_Some. }
    destruct (step_counters _ _ _ _ _ _ HL Hstep Hw' Ht')
      as [(_ & _ & _ & Hf)|(w & t & Hw & Ht & Hch)]; [lia|].
    destruct (counter_change_ok _ _ _ _ _ _ _ Hfits Hw Hch (HJ _ _ _ Hw Ht)) as [_ Hle].
    specialize (IH _ _ Ht). lia.
Qed.

(** X15. While every worker's counter stays inside [int64], the byte count
    shown by a task is never negative and never more than what its worker
    has written to the file so far; before the worker has opened the file it
    is zero. *)
Theorem X15_progress_within_written s :
  reach counter_fits s →
  ∀ p w t, workers s !! p = Some w → heap s !! p = Some t →
    0 <= FileSize t <= totalBytes w
    ∧ (before_loop (at_pc w) = true → FileSize t = 0).
Proof.
  intros Hreach p w t Hw Ht.
  destruct (reach_counters_ok _ Hreach) as [_ HJ].
  destruct (HJ _ _ _ Hw Ht) as (H0 & Hle & Hbefore).
  pose proof (reach_FileSize_nonneg _ Hreach _ _ Ht) as Hnn.
  split; [lia|]. intros Hb. specialize (Hbefore Hb). lia.
Qed.

Lemma X15_progress_within_written_witness :
  ∃ t, heap reading !! 0%nat = Some t ∧ 0 <= FileSize t <= 0.
Proof.
  assert (reach counter_fits reading) as Hreach.
  { apply (reach_steps _ (New "/app/data")); [apply reach_New|].
    apply (run_steps _ _ to_read_loop); [|reflexivity].
    cbn. repeat split. }
  eexists. split; [reflexivity|].
  exact (proj1 (X15_progress_within_written reading Hreach 0%nat
                  (mkWorker PcRead false 0 3) _ eq_refl eq_refl)).
Defined.

(** ** Plain file names *)

Lemma chars_app a b : Filepath.chars (a +:+ b) = Filepath.chars a ++ Filepath.chars b.
Proof.
  unfold Filepath.chars. induction a as [|c a IH]; [done|].
  change (String c a +:+ b) with (String c (a +:+ b)). simpl. by rewrite IH.
Qed.

Lemma of_chars_chars s : Filepath.of_chars (Filepath.chars s) = s.
Proof. apply String.string_of_list_ascii_of_string. Qed.

Lemma chars_of_chars l : Filepath.chars (Filepath.of_chars l) = l.
Proof. apply String.list_ascii_of_string_of_list_ascii. Qed.

Lemma chars_inj a b : Filepath.chars a = Filepath.chars b → a = b.
Proof. intros H. by rewrite <- (of_chars_chars a), H, of_chars_chars. Qed.

Lemma split_sep_no_separator cur l :
  Filepath.Separator ∉ l → Filepath.split_sep cur l = [rev cur ++ l].
Proof.
  revert cur. induction l as [|c l IH]; intros cur Hno; simpl.
  - by rewrite app_nil_r.
  - unfold Filepath.IsPathSeparator. rewrite bool_decide_false.
    + rewrite IH; [|by intros ?; apply Hno; right]. simpl.
      by rewrite <- app_assoc.
    + intros ->. apply Hno. left.
Qed.

Lemma split_sep_last_element cur l name :
  Filepath.Separator ∉ name →
  Filepath.split_sep cur (l ++ Filepath.Separator :: name)
  = Filepath.split_sep cur l ++ [name].
Proof.
  intros Hno. revert cur. induction l as [|c l IH]; intros cur; simpl.
  - by rewrite (split_sep_no_separator [] name).
  - destruct (Filepath.IsPathSeparator c); simpl; by rewrite IH.
Qed.

Lemma clean_chars_rooted l :
  Filepath.clean_chars (Filepath.Separator :: l)
  = match Filepath.out
            (foldl (Filepath.clean_elem true)
                   {| Filepath.out := [Filepath.Separator]; Filepath.dotdot := 1 |}
                   (Filepath.split_sep [] (Filepath.Separator :: l))) with
    | [] => [Filepath.dot]
    | o => o
    end.
Proof. reflexivity. Qed.

Lemma clean_elem_plain b e :
  e ≠ [] → e ≠ [Filepath.dot] → e ≠ [Filepath.dot; Filepath.dot] →
  Filepath.out (Filepath.clean_elem true b e)
  = (if bool_decide (length (Filepath.out b) = 1%nat) then Filepath.out b
     else Filepath.out b ++ [Filepath.Separator]) ++ e.
Proof.
  intros Hne Hdot Hdotdot. unfold Filepath.clean_elem.
  destruct e as [|c e]; [done|].
  rewrite (bool_decide_false (c :: e = [Filepath.dot])) by done.
  rewrite (bool_decide_false (c :: e = [Filepath.dot; Filepath.dot])) by done.
  simpl. rewrite orb_false_r. by case_bool_decide.
Qed.

Lemma clean_chars_plain r namec :
  Filepath.clean_chars (Filepath.Separator :: r) = Filepath.Separator :: r →
  namec ≠ [] → namec ≠ [Filepath.dot] → namec ≠ [Filepath.dot; Filepath.dot] →
  Filepath.Separator ∉ namec →
  Filepath.clean_chars ((Filepath.Separator :: r) ++ Filepath.Separator :: namec)
  = (if bool_decide (r = []) then [Filepath.Separator]
     else Filepath.Separator :: r ++ [Filepath.Separator]) ++ namec.
Proof.
  intros Hclean Hne Hdot Hdotdot Hsep.
  rewrite clean_chars_rooted in Hclean.
  change ((Filepath.Separator :: r) ++ Filepath.Separator :: namec)
    with (Filepath.Separator :: (r ++ Filepath.Separator :: namec)).
  rewrite clean_chars_rooted.
  change (Filepath.Separator :: (r ++ Filepath.Separator :: namec))
    with ((Filepath.Separator :: r) ++ Filepath.Separator :: namec).
  rewrite split_sep_last_element, foldl_app by done.
  cbn [foldl]. rewrite clean_elem_plain by done.
  destruct (Filepath.out _) as [|c o] eqn:Hout in Hclean; [discriminate Hclean|].
  rewrite Hout, Hclean.
  assert (bool_decide (length (Filepath.Separator :: r) = 1%nat) = bool_decide (r = []))
    as ->.
  { apply bool_decide_ext. destruct r; simpl; split; (done || lia). }
  case_bool_decide as Hr; [by subst r|done].
Qed.

(** Joining a clean, rooted directory with a plain name appends the name as
    one more element. *)
Lemma Join_plain dir name :
  (∃ rest, dir = String Filepath.Separator rest) →
  Filepath.Clean dir = dir → plain_name name →
  Filepath.Join [dir; name]
  = if bool_decide (dir = "/") then "/" +:+ name else dir +:+ "/" +:+ name.
Proof.
  intros [rest ->] Hclean (Hne & Hdot & Hdotdot & Hsep).
  cbn [Filepath.Join]. rewrite bool_decide_false by discriminate.
  cbn [Filepath.join_sep]. unfold Filepath.Clean in *.
  apply (f_equal Filepath.chars) in Hclean. rewrite chars_of_chars in Hclean.
  rewrite !chars_app.
  change (Filepath.chars (String Filepath.Separator rest))
    with (Filepath.Separator :: Filepath.chars rest) in *.
  change (Filepath.chars "/" ++ Filepath.chars name)
    with (Filepath.Separator :: Filepath.chars name).
  rewrite clean_chars_plain; try done.
  - apply chars_inj. rewrite chars_of_chars.
    case_bool_decide as Hr; case_bool_decide as Hd.
    + by rewrite chars_app.
    + destruct Hd. f_equal. apply chars_inj. by rewrite Hr.
    + injection Hd as ->. by destruct Hr.
    + rewrite !chars_app. simpl. by rewrite <- app_assoc.
  - intros Heq. apply Hne, chars_inj. by rewrite Heq.
  - intros Heq. apply Hdot, chars_inj. by rewrite Heq.
  - intros Heq. apply Hdotdot, chars_inj. by rewrite Heq.
Qed.

Lemma plain_name_resolved taskID name :
  plain_name name → plain_name (resolveFileName taskID name).
Proof.
  intros (Hne & Hdot & Hdotdot & Hsep). unfold resolveFileName.
  rewrite bool_decide_false by done. case_bool_decide; [|done].
  assert (Filepath.chars (name +:+ ".flv")
          = Filepath.chars name ++ Filepath.chars ".flv") as Hc by apply chars_app.
  split; [|split; [|split]].
  - intros Heq. rewrite Heq in Hc. by destruct (Filepath.chars name).
  - intros Heq. rewrite Heq in Hc. apply (f_equal length) in Hc.
    rewrite length_app in Hc. simpl in Hc. lia.
  - intros Heq. rewrite Heq in Hc. apply (f_equal length) in Hc.
    rewrite length_app in Hc. simpl in Hc. lia.
  - rewrite Hc. intros [Hin|Hin]%elem_of_app; [done|].
    repeat (apply elem_of_cons in Hin as [Hin|Hin]; [discriminate Hin|]).
    by apply elem_of_nil in Hin.
Qed.

(** X16. When the data directory is an absolute, clean path, a file name
    that is a single path element (not empty, not [.] or [..], without a
    slash) is stored directly in the data directory: the target path is the
    directory, a slash and the resolved file name, and the resolved name is
    again a single element. *)
Theorem X16_plain_name_stays_inside s url fileName nowID nowStart :
  (∃ rest, dataDir (d s) = String Filepath.Separator rest) →
  Filepath.Clean (dataDir (d s)) = dataDir (d s) →
  plain_name fileName →
  ∃ t, created s url fileName nowID nowStart = Some t
     ∧ plain_name (FileName t)
     ∧ FilePath t = (if bool_decide (dataDir (d s) = "/") then "/" +:+ FileName t
                     else dataDir (d s) +:+ "/" +:+ FileName t)
     ∧ (dataDir (d s) ≠ "/" → inside (dataDir (d s)) (FilePath t)).
Proof.
  intros Hroot Hclean Hplain. unfold created, CreateTask. simpl.
  rewrite lookup_app_r by lia. rewrite Nat.sub_diag. simpl.
  eexists. split; [reflexivity|]. cbn [FileName FilePath].
  pose proof (plain_name_resolved (pretty nowID) _ Hplain) as Hres.
  split; [done|].
  pose proof (Join_plain _ _ Hroot Hclean Hres) as HJ.
  cbn [Filepath.Join Filepath.join_sep] in HJ. rewrite HJ.
  split; [done|]. intros Hne. rewrite bool_decide_false by done. by eexists.
Qed.

Lemma X16_plain_name_stays_inside_witness :
  ∃ t, created (New "/app/data") "http://x/live.flv" "show" 1700 1701 = Some t
     ∧ FilePath t = "/app/data" +:+ "/" +:+ FileName t.
Proof.
  destruct (X16_plain_name_stays_inside (New "/app/data") "http://x/live.flv" "show"
              1700 1701) as (t & Ht & _ & Hpath & _).
  - by exists "app/data".
  - reflexivity.
  - split; [discriminate|]. split; [discriminate|]. split; [discriminate|].
    intros H. repeat (apply elem_of_cons in H as [H|H]; [discriminate H|]).
    by apply elem_of_nil in H.
  - exists t. split; [exact Ht|exact Hpath].
Defined.

(** ** Resolved file names *)

Lemma Ext_flv x : Filepath.Ext (x +:+ ".flv") = ".flv".
Proof.
  unfold Filepath.Ext. rewrite chars_app, rev_app_distr. reflexivity.
Qed.

(** X17. The file name [CreateTask] resolves always has an extension, which
    is [.flv] whenever the caller gave no name or a name without extension;
    and resolving a resolved name changes nothing. *)
Theorem X17_resolved_name_has_extension taskID fileName :
  Filepath.Ext (resolveFileName taskID fileName) ≠ ""
  ∧ (fileName = "" ∨ lacks_extension fileName →
     Filepath.Ext (resolveFileName taskID fileName) = ".flv")
  ∧ resolveFileName taskID (resolveFileName taskID fileName)
    = resolveFileName taskID fileName.
Proof.
  assert (∀ x, x +:+ ".flv" ≠ "") as Hne.
  { intros x Heq. apply (f_equal Filepath.chars) in Heq.
    rewrite chars_app in Heq. by destruct (Filepath.chars x). }
  assert (∀ x, resolveFileName taskID (x +:+ ".flv") = x +:+ ".flv") as Hfix.
  { intros x. unfold resolveFileName.
    by rewrite bool_decide_false, Ext_flv, bool_decide_false by (done || apply Hne). }
  assert ((∃ x, resolveFileName taskID fileName = x +:+ ".flv")
          ∨ (resolveFileName taskID fileName = fileName
             ∧ fileName ≠ "" ∧ Filepath.Ext fileName ≠ "")) as [[x ->]|(-> & Hn & He)].
  { unfold resolveFileName. case_bool_decide as Hempty.
    - left. exists ("stream_" +:+ taskID).
      apply chars_inj. rewrite !chars_app. by rewrite <- app_assoc.
    - case_bool_decide as Hext; [left; by eexists|right; done]. }
  - by rewrite Ext_flv, Hfix.
  - split; [done|]. split.
    + intros [?|Hl%Ext_empty_iff]; done.
    + unfold resolveFileName. by rewrite bool_decide_false, bool_decide_false.
Qed.

(** ** The delete handler for active tasks *)

(** X19. A delete request for an active task, whose path is the route
    prefix followed by [taskID], is answered 200 exactly when the method is
    DELETE, the id is not empty, the id is active and the removal of the
    file does not fail; the entry is then gone from the active partition.
    Every other answer leaves the registry and all task records as they
    were: 405 for another method, 400 for an empty id, 500 for an unknown id
    or a failed removal. *)
Theorem X19_handleDeleteActiveTask_status s method taskID rm :
  ∃ s' code b,
    handleDeleteActiveTask s method (delete_active_prefix +:+ taskID) rm
    = Some (s', (code, b))
    ∧ (code = StatusOK ↔
       method = "DELETE" ∧ taskID ≠ ""
       ∧ is_Some (activeTasks (d s) !! taskID) ∧ ∀ msg, rm ≠ RemoveFailed msg)
    ∧ (code = StatusOK →
       activeTasks (d s') = delete taskID (activeTasks (d s))
       ∧ completedTasks (d s') = completedTasks (d s))
    ∧ (code ≠ StatusOK → d s' = d s)
    ∧ heap s' = heap s
    ∧ (method ≠ "DELETE" → code = StatusMethodNotAllowed)
    ∧ (method = "DELETE" → taskID = "" → code = StatusBadRequest)
    ∧ (method = "DELETE" → taskID ≠ "" → code ≠ StatusOK →
       code = StatusInternalServerError).
Proof.
  unfold handleDeleteActiveTask. case_bool_decide as Hm.
  { eexists _, _, _. split; [reflexivity|].
    split; [split; [discriminate|by intros [? _]]|].
    repeat split; try done; discriminate. }
  rewrite slice_from_prefix. simpl. case_bool_decide as Hid.
  { eexists _, _, _. split; [reflexivity|].
    split; [split; [discriminate|by intros (_ & ? & _)]|].
    repeat split; try done; discriminate. }
  unfold DeleteActiveTask. destruct (activeTasks (d s) !! taskID) as [p|] eqn:Hact.
  - destruct rm as [| |msg]; simpl;
      (eexists _, _, _; split; [reflexivity|]);
      cbn [d heap with_partitions activeTasks completedTasks];
      rewrite ?cancel_if_registered_d, ?cancel_if_registered_heap.
    + split; [split; [intros _; repeat split; eauto; discriminate|done]|].
      repeat split; try done.
    + split; [split; [intros _; repeat split; eauto; discriminate|done]|].
      repeat split; try done.
    + split; [split; [discriminate|]|].
      * intros (_ & _ & _ & H). by destruct (H msg).
      * repeat split; try done; discriminate.
  - eexists _, _, _. split; [reflexivity|].
    split; [split; [discriminate|by intros (_ & _ & [? ?] & _)]|].
    repeat split; try done; discriminate.
Qed.

(** ** Cancellation and exit are permanent *)

Lemma step_workers_inv s ev s' q w' :
  step s ev = Some s' → workers s' !! q = Some w' →
  workers s !! q = None
  ∨ ∃ w, workers s !! q = Some w
       ∧ (ctxDone w = true → ctxDone w' = true)
       ∧ (exited_pc (at_pc w) = true → exited_pc (at_pc w') = true)
       ∧ (at_pc w = PcDone → at_pc w' = PcDone).
Proof.
  assert (∀ tid s0 w0, workers (cancel_if_registered tid s0) !! q = Some w0 →
            ∃ w, workers s0 !! q = Some w ∧ (ctxDone w = true → ctxDone w0 = true)
                 ∧ at_pc w0 = at_pc w) as Hcancel.
  { intros tid s0 w0. unfold cancel_if_registered.
    destruct (cancelFuncs (d s0) !! tid) as [c|]; [|by eauto].
    simpl. intros [(-> & x & Hx & ->)|[_ H]]%list_alter_inv; eauto. }
  intros Hstep Hw'.
  destruct ev as [url fn nid nst|tid now|tid rm|tid rm|p inp]; simpl in Hstep.
  - injection Hstep as <-. unfold CreateTask in Hw'. simpl in Hw'.
    apply list_snoc_inv in Hw' as [Hw'|(_ & Hnone & _)]; [right|by left].
    eauto 10.
  - injection Hstep as <-. unfold StopTask in Hw'.
    destruct (activeTasks (d s) !! tid) as [p|]; simpl in Hw'; right.
    + apply Hcancel in Hw' as (w & Hw & Hctx & Hpc). exists w.
      rewrite Hpc. auto.
    + eauto 10.
  - injection Hstep as <-. unfold DeleteActiveTask in Hw'.
    destruct (activeTasks (d s) !! tid) as [p|]; [destruct rm|]; simpl in Hw'; right;
      try (apply Hcancel in Hw' as (w & Hw & Hctx & Hpc); exists w; rewrite Hpc);
      eauto 10.
  - injection Hstep as <-. unfold DeleteCompletedTask in Hw'.
    destruct (completedTasks (d s) !! tid) as [p|]; [destruct rm|]; simpl in Hw'; right;
      eauto 10.
  - right. worker_cases Hstep inp w t Hw Ht Hpc;
      cbn [workers heap goto with_workers with_heap with_partitions with_handles]
        in Hw';
      inv_lookup Hw'; (eexists; split; [eassumption|]);
      simpl; rewrite ?Hpc; repeat split; (done || discriminate).
Qed.

Lemma step_workers_length s ev s' :
  step s ev = Some s' → (length (workers s) ≤ length (workers s'))%nat.
Proof.
  intros Hstep.
  destruct ev as [url fn nid nst|tid now|tid rm|tid rm|p inp]; simpl in Hstep.
  - injection Hstep as <-. unfold CreateTask. simpl. rewrite length_app. lia.
  - injection Hstep as <-. unfold StopTask.
    destruct (activeTasks (d s) !! tid) as [p|]; simpl;
      rewrite ?cancel_if_registered_length; lia.
  - injection Hstep as <-. unfold DeleteActiveTask.
    destruct (activeTasks (d s) !! tid) as [p|]; [destruct rm|]; simpl;
      rewrite ?cancel_if_registered_length; lia.
  - injection Hstep as <-. unfold DeleteCompletedTask.
    destruct (completedTasks (d s) !! tid) as [p|]; [destruct rm|]; simpl; lia.
  - worker_cases Hstep inp w t Hw Ht Hpc; simpl; rewrite ?length_alter; lia.
Qed.

(** X20. Nothing undoes a cancellation or revives a goroutine: in any later
    state a worker whose context was cancelled still has it cancelled, a
    worker that had left the body of [startDownload] is still outside it,
    and a worker that had returned has still returned. *)
Theorem X20_cancel_and_exit_are_permanent s s' :
  steps unconstrained s s' →
  ∀ p w, workers s !! p = Some w →
    ∃ w', workers s' !! p = Some w'
        ∧ (ctxDone w = true → ctxDone w' = true)
        ∧ (exited_pc (at_pc w) = true → exited_pc (at_pc w') = true)
        ∧ (at_pc w = PcDone → at_pc w' = PcDone).
Proof.
  induction 1 as [s|s ev s1 s' _ Hstep _ IH]; intros p w Hw.
  - exists w. done.
  - pose proof (step_workers_length _ _ _ Hstep) as Hlen.
    pose proof (lookup_lt_Some _ _ _ Hw) as Hlt.
    destruct (lookup_lt_is_Some_2 (workers s1) p) as [w1 Hw1]; [lia|].
    destruct (step_workers_inv _ _ _ _ _ Hstep Hw1)
      as [Hnone|(w0 & Hw0 & Hctx & Hex & Hdone)]; [congruence|].
    assert (w0 = w) as -> by congruence.
    destruct (IH _ _ Hw1) as (w' & Hw' & Hctx' & Hex' & Hdone').
    exists w'. split; [done|]. auto.
Qed.

Lemma X20_cancel_and_exit_are_permanent_witness :
  ∃ w', workers (after stopped_then_read_error) !! 0%nat = Some w'
      ∧ ctxDone w' = true.
Proof.
  destruct (X20_cancel_and_exit_are_permanent
              (after (to_read_loop ++ [EStopTask "1700" 50]))
              (after stopped_then_read_error)
              (run_steps unconstrained
                 (after (to_read_loop ++ [EStopTask "1700" 50]))
                 [EWorker 0%nat (InRead 0 (Some (Err "context canceled")) None 4 5 6);
                  EWorker 0%nat (InCheckErr 60)] _
                 (conj I (conj I I)) eq_refl)
              0%nat _ eq_refl)
    as (w' & Hw' & Hctx & _).
  exists w'. split; [exact Hw'|]. apply Hctx. reflexivity.
Defined.
